(** * Reference finding over a layered lanelet map

    A shallow embedding of the traversal engine of
    [common/lanelet2_extension/lib/query.cpp] (the five [recurse] overloads)
    and of the result aggregator [query::References] declared in
    [lanelet2_extension/utility/query.h], together with the properties the
    specification states about them. *)

From Stdlib Require Import String.
From Stdlib Require Import List ZArith Bool Lia Arith PeanoNat.
Import ListNotations.


(** ** Primitives

    [lanelet::Id] is a 64-bit integer; only equality of ids is ever used. *)

Definition Id := Z.

(** [lanelet::ConstPoint3d]: the traversal only looks at the id. *)
Record Point := mkPoint { point_id : Id }.

(** [lanelet::ConstLineString3d]: an id and the ordered points it is made of
    (what [for (auto p : prim)] iterates over). *)
Record LineString := mkLineString {
  ls_id : Id;
  ls_points : list Point
}.

(** Lanelets, areas and regulatory elements refer to one another: a lanelet
    or an area carries regulatory elements, and a regulatory element refers to
    primitives of mixed kinds through its parameters.  The containment is a
    finite tree, which is what an inductive type describes.

    A regulatory element is handled through a shared pointer
    ([lanelet::RegulatoryElementConstPtr]).  [hash] stands for where
    [std::hash] of that pointer, which hashes the address and not the id,
    makes a hash table look for it: one object always has one value, two
    objects have the same value when the table puts them in one bucket. *)
Inductive Lanelet : Type :=
| mkLanelet (id : Id) (leftBound rightBound : LineString)
            (regulatoryElements : list RegulatoryElement)
with Area : Type :=
| mkArea (id : Id) (outerBound : list LineString)
         (innerBounds : list (list LineString))
         (regulatoryElements : list RegulatoryElement)
with RegulatoryElement : Type :=
| mkRegulatoryElement (hash : Z) (id : Id) (parameters : list RuleParameter)
with RuleParameter : Type :=
| RP_Point (p : Point)
| RP_LineString (ls : LineString)
| RP_Lanelet (llt : Lanelet)
| RP_Area (area : Area).

Definition llt_id (l : Lanelet) : Id :=
  match l with mkLanelet i _ _ _ => i end.
Definition leftBound (l : Lanelet) : LineString :=
  match l with mkLanelet _ lb _ _ => lb end.
Definition rightBound (l : Lanelet) : LineString :=
  match l with mkLanelet _ _ rb _ => rb end.
Definition llt_regulatoryElements (l : Lanelet) : list RegulatoryElement :=
  match l with mkLanelet _ _ _ rs => rs end.

Definition area_id (a : Area) : Id :=
  match a with mkArea i _ _ _ => i end.
Definition outerBound (a : Area) : list LineString :=
  match a with mkArea _ o _ _ => o end.
Definition innerBounds (a : Area) : list (list LineString) :=
  match a with mkArea _ _ i _ => i end.
Definition area_regulatoryElements (a : Area) : list RegulatoryElement :=
  match a with mkArea _ _ _ rs => rs end.

Definition regem_hash (r : RegulatoryElement) : Z :=
  match r with mkRegulatoryElement h _ _ => h end.
Definition regem_id (r : RegulatoryElement) : Id :=
  match r with mkRegulatoryElement _ i _ => i end.
Definition parameters (r : RegulatoryElement) : list RuleParameter :=
  match r with mkRegulatoryElement _ _ ps => ps end.

(** ** The layered map

    The map and its layers belong to the lanelet2 library; [recurse] only
    consumes the existence checks and the reverse lookups listed here.  Each
    field is one member call of the source, e.g.
    [ll_Map->laneletLayer.findUsages(prim)] on a line string. *)
Record LaneletMap := mkLaneletMap {
  pointLayer_exists : Id -> bool;
  lineStringLayer_exists : Id -> bool;
  lineStringLayer_findUsages : Point -> list LineString;
  laneletLayer_exists : Id -> bool;
  laneletLayer_findUsages_ls : LineString -> list Lanelet;
  laneletLayer_findUsages_regem : RegulatoryElement -> list Lanelet;
  areaLayer_exists : Id -> bool;
  areaLayer_findUsages_ls : LineString -> list Area;
  areaLayer_findUsages_regem : RegulatoryElement -> list Area;
  regulatoryElementLayer_exists : Id -> bool;
  regulatoryElementLayer_findUsages : LineString -> list RegulatoryElement
}.

(** ** The Reference Set  *)

(** [enum direction {CHECK_CHILD, CHECK_PARENT}] *)
Inductive direction := CHECK_CHILD | CHECK_PARENT.

(** [References::comparator]: two primitives are the same member when their
    ids are equal. *)
Definition comparator {PrimT : Type} (id_of : PrimT -> Id)
  (prim1 prim2 : PrimT) : bool :=
  Z.eqb (id_of prim1) (id_of prim2).

(** [std::unordered_set::insert] under [comparator], for the three sets whose
    hash is the id (line strings, lanelets, areas): nothing happens when a
    member with an equal key is already there.  The iteration order of the
    set is never observed by the traversal; a new member goes to the front. *)
Definition insert {PrimT : Type} (id_of : PrimT -> Id)
  (prim : PrimT) (s : list PrimT) : list PrimT :=
  if existsb (comparator id_of prim) s then s else prim :: s.

(** [std::unordered_set::insert] when the hash is not the id, as for
    [regems], declared with [std::hash<lanelet::RegulatoryElementConstPtr>]
    (query.h, line 69): the set looks for the key in the bucket of its hash
    only, and compares with [comparator] there.  A member with the same id
    that sits in another bucket is not seen, and the key is inserted beside
    it. *)
Definition insert_hashed {PrimT : Type} (hash_of : PrimT -> Z)
  (id_of : PrimT -> Id) (prim : PrimT) (s : list PrimT) : list PrimT :=
  if existsb (fun member =>
                Z.eqb (hash_of prim) (hash_of member)
                && comparator id_of prim member) s
  then s else prim :: s.

(** [struct References]: four sets, one per recorded kind. *)
Record References := mkReferences {
  lss : list LineString;
  llts : list Lanelet;
  areas : list Area;
  regems : list RegulatoryElement
}.

(** [References() {}] *)
Definition empty_References : References := mkReferences [] [] [] [].

Definition lss_insert (prim : LineString) (rfs : References) : References :=
  mkReferences (insert ls_id prim (lss rfs)) (llts rfs) (areas rfs) (regems rfs).
Definition llts_insert (prim : Lanelet) (rfs : References) : References :=
  mkReferences (lss rfs) (insert llt_id prim (llts rfs)) (areas rfs) (regems rfs).
Definition areas_insert (prim : Area) (rfs : References) : References :=
  mkReferences (lss rfs) (llts rfs) (insert area_id prim (areas rfs)) (regems rfs).
Definition regems_insert (prim : RegulatoryElement) (rfs : References)
  : References :=
  mkReferences (lss rfs) (llts rfs) (areas rfs)
    (insert_hashed regem_hash regem_id prim (regems rfs)).

(** [for (auto x : xs) body(x, rfs);] with [rfs] passed by reference. *)
Definition for_each {A : Type} (xs : list A)
  (body : A -> References -> References) (rfs : References) : References :=
  fold_left (fun acc x => body x acc) xs rfs.

(** [xs.size() == 0] *)
Definition is_empty {A : Type} (xs : list A) : bool :=
  match xs with [] => true | _ :: _ => false end.

(** ** The traversal engine

    The overloads of [recurse] call one another: a point enters the line
    strings that own it, always upward, and a line string entered downward
    enters its points.  The upward halves, which only ever call upward, come
    first; each overload is then assembled with both of its directions. *)

(** Going up from a lanelet (query.cpp, lines 112-116): nobody owns a lanelet,
    it is recorded when it exists in its layer. *)
Definition recurse_Lanelet_up (prim : Lanelet) (ll_Map : LaneletMap)
  (rfs : References) : References :=
  if laneletLayer_exists ll_Map (llt_id prim) then llts_insert prim rfs else rfs.

(** Going up from an area (lines 141-145). *)
Definition recurse_Area_up (prim : Area) (ll_Map : LaneletMap)
  (rfs : References) : References :=
  if areaLayer_exists ll_Map (area_id prim) then areas_insert prim rfs else rfs.

(** Going up from a regulatory element (lines 159-178). *)
Definition recurse_RegulatoryElement_up (prim_ptr : RegulatoryElement)
  (ll_Map : LaneletMap) (rfs : References) : References :=
  let llt_list_owning_regem := laneletLayer_findUsages_regem ll_Map prim_ptr in
  let rfs := for_each llt_list_owning_regem
               (fun llt => recurse_Lanelet_up llt ll_Map) rfs in
  let area_list_owning_regem := areaLayer_findUsages_regem ll_Map prim_ptr in
  let rfs := for_each area_list_owning_regem
               (fun area => recurse_Area_up area ll_Map) rfs in
  if is_empty area_list_owning_regem && is_empty llt_list_owning_regem
     && regulatoryElementLayer_exists ll_Map (regem_id prim_ptr)
  then regems_insert prim_ptr rfs else rfs.

(** Going up from a line string (lines 67-94). *)
Definition recurse_LineString_up (prim : LineString) (ll_Map : LaneletMap)
  (rfs : References) : References :=
  let llt_list_owning_ls := laneletLayer_findUsages_ls ll_Map prim in
  let rfs := for_each llt_list_owning_ls
               (fun llt => recurse_Lanelet_up llt ll_Map) rfs in
  let area_list_owning_ls := areaLayer_findUsages_ls ll_Map prim in
  let rfs := for_each area_list_owning_ls
               (fun area => recurse_Area_up area ll_Map) rfs in
  let regem_list_owning_ls := regulatoryElementLayer_findUsages ll_Map prim in
  let rfs := for_each regem_list_owning_ls
               (fun regem => recurse_RegulatoryElement_up regem ll_Map) rfs in
  if is_empty area_list_owning_ls && is_empty llt_list_owning_ls
     && is_empty regem_list_owning_ls
     && lineStringLayer_exists ll_Map (ls_id prim)
  then lss_insert prim rfs else rfs.

(** [recurse(const ConstPoint3d&, ...)] (lines 36-50).  The direction is
    received and not looked at: the owners are always entered with
    [CHECK_PARENT]. *)
Definition recurse_Point (prim : Point) (ll_Map : LaneletMap)
  (check_dir : direction) (rfs : References) : References :=
  let ls_list_owning_point := lineStringLayer_findUsages ll_Map prim in
  if is_empty ls_list_owning_point then rfs
  else for_each ls_list_owning_point
         (fun ls => recurse_LineString_up ls ll_Map) rfs.

(** [recurse(const ConstLineString3d&, ...)] (lines 53-95). *)
Definition recurse_LineString (prim : LineString) (ll_Map : LaneletMap)
  (check_dir : direction) (rfs : References) : References :=
  match check_dir with
  | CHECK_CHILD =>
      for_each (ls_points prim) (fun p => recurse_Point p ll_Map check_dir) rfs
  | CHECK_PARENT => recurse_LineString_up prim ll_Map rfs
  end.

(** [recurse] on lanelets, areas and regulatory elements (lines 98-179).
    Going down follows the containment, so the four functions are defined
    together by recursion on the primitive.

    Modelled from the spec: [RecurseVisitor] and [applyVisitor] are not in
    query.cpp.  Following section 4.3, the visitor carries the map, the
    direction and the Reference Set under construction, and its handler
    forwards every primitive the rule references into [recurse] with that
    direction; [parameters] lists the referenced primitives in visiting order,
    the role names playing no part in the traversal. *)
Fixpoint recurse_Lanelet (prim : Lanelet) (ll_Map : LaneletMap)
  (check_dir : direction) (rfs : References) {struct prim} : References :=
  match check_dir with
  | CHECK_CHILD =>
      match prim with
      | mkLanelet _ lb rb rs =>
          let rfs := recurse_LineString lb ll_Map check_dir rfs in
          let rfs := recurse_LineString rb ll_Map check_dir rfs in
          for_each rs
            (fun regem => recurse_RegulatoryElement regem ll_Map check_dir) rfs
      end
  | CHECK_PARENT => recurse_Lanelet_up prim ll_Map rfs
  end
with recurse_Area (prim : Area) (ll_Map : LaneletMap)
  (check_dir : direction) (rfs : References) {struct prim} : References :=
  match check_dir with
  | CHECK_CHILD =>
      match prim with
      | mkArea _ outer inner rs =>
          let rfs := for_each outer
                       (fun ls => recurse_LineString ls ll_Map check_dir) rfs in
          let rfs := for_each inner
                       (fun inner_lss =>
                          for_each inner_lss
                            (fun ls => recurse_LineString ls ll_Map check_dir))
                       rfs in
          for_each rs
            (fun regem => recurse_RegulatoryElement regem ll_Map check_dir) rfs
      end
  | CHECK_PARENT => recurse_Area_up prim ll_Map rfs
  end
with recurse_RegulatoryElement (prim_ptr : RegulatoryElement)
  (ll_Map : LaneletMap) (check_dir : direction) (rfs : References)
  {struct prim_ptr} : References :=
  match check_dir with
  | CHECK_CHILD =>
      match prim_ptr with
      | mkRegulatoryElement _ _ ps =>
          for_each ps (fun param => RecurseVisitor param ll_Map check_dir) rfs
      end
  | CHECK_PARENT => recurse_RegulatoryElement_up prim_ptr ll_Map rfs
  end
with RecurseVisitor (param : RuleParameter) (ll_Map : LaneletMap)
  (check_dir : direction) (rfs : References) {struct param} : References :=
  match param with
  | RP_Point p => recurse_Point p ll_Map check_dir rfs
  | RP_LineString ls => recurse_LineString ls ll_Map check_dir rfs
  | RP_Lanelet llt => recurse_Lanelet llt ll_Map check_dir rfs
  | RP_Area area => recurse_Area area ll_Map check_dir rfs
  end.

(** ** The overload set and the entry point *)

(** The overloads of [recurse] share one name; a class gives them one name
    here as well, with the argument order of the source. *)
Class Recurse (primT : Type) :=
  recurse : primT -> LaneletMap -> direction -> References -> References.

#[global] Instance Recurse_Point : Recurse Point := recurse_Point.
#[global] Instance Recurse_LineString : Recurse LineString := recurse_LineString.
#[global] Instance Recurse_Lanelet : Recurse Lanelet := recurse_Lanelet.
#[global] Instance Recurse_Area : Recurse Area := recurse_Area.
#[global] Instance Recurse_RegulatoryElement : Recurse RegulatoryElement :=
  recurse_RegulatoryElement.

(** A primitive of any of the five supported kinds. *)
Inductive Primitive :=
| PPoint (p : Point)
| PLineString (ls : LineString)
| PLanelet (llt : Lanelet)
| PArea (area : Area)
| PRegulatoryElement (regem : RegulatoryElement).

Definition Primitive_of_RuleParameter (param : RuleParameter) : Primitive :=
  match param with
  | RP_Point p => PPoint p
  | RP_LineString ls => PLineString ls
  | RP_Lanelet llt => PLanelet llt
  | RP_Area area => PArea area
  end.

(** Overload resolution on the kind of the argument. *)
#[global] Instance Recurse_Primitive : Recurse Primitive :=
  fun prim ll_Map check_dir rfs =>
    match prim with
    | PPoint p => recurse p ll_Map check_dir rfs
    | PLineString ls => recurse ls ll_Map check_dir rfs
    | PLanelet llt => recurse llt ll_Map check_dir rfs
    | PArea area => recurse area ll_Map check_dir rfs
    | PRegulatoryElement regem => recurse regem ll_Map check_dir rfs
    end.

(** Modelled from the spec: the body of the template [findReferences],
    declared in query.h (lines 77-78), is in internal/query.tpp, which is not
    among the sources.  Section 4.2: the traversal is entered with direction
    up, and the Reference Set it fills is returned. *)
Definition findReferences {primT : Type} `{Recurse primT}
  (prim : primT) (ll_Map : LaneletMap) : References :=
  recurse prim ll_Map CHECK_PARENT empty_References.

(** How a call can end: with the Reference Set, or by failing (an error
    result, an exception, an abort). *)
Inductive Outcome :=
| Returned (rfs : References)
| Failed.

(** A call of [findReferences] as the caller sees it.  The declared result
    is a [References] by value; no overload of [recurse] throws, aborts or
    reports an error, and the lookups they call return containers: the call
    always comes back with its Reference Set. *)
Definition findReferences_call {primT : Type} `{Recurse primT}
  (prim : primT) (ll_Map : LaneletMap) : Outcome :=
  Returned (findReferences prim ll_Map).

(** ** Membership and layers *)

(** Membership in a result set, decided by the comparator. *)
Definition contains {PrimT : Type} (id_of : PrimT -> Id)
  (prim : PrimT) (s : list PrimT) : bool :=
  existsb (comparator id_of prim) s.

(** The ids recorded in a result set. *)
Definition ids {PrimT : Type} (id_of : PrimT -> Id) (s : list PrimT) : list Id :=
  map id_of s.

(** Existence of a primitive in the layer of its kind. *)
Definition exists_in_layer (ll_Map : LaneletMap) (prim : Primitive) : bool :=
  match prim with
  | PPoint p => pointLayer_exists ll_Map (point_id p)
  | PLineString ls => lineStringLayer_exists ll_Map (ls_id ls)
  | PLanelet llt => laneletLayer_exists ll_Map (llt_id llt)
  | PArea area => areaLayer_exists ll_Map (area_id area)
  | PRegulatoryElement regem => regulatoryElementLayer_exists ll_Map (regem_id regem)
  end.

(** Whether the Reference Set records the primitive itself.  Points are never
    recorded: there is no set for them. *)
Definition records (rfs : References) (prim : Primitive) : bool :=
  match prim with
  | PPoint _ => false
  | PLineString ls => contains ls_id ls (lss rfs)
  | PLanelet llt => contains llt_id llt (llts rfs)
  | PArea area => contains area_id area (areas rfs)
  | PRegulatoryElement regem => contains regem_id regem (regems rfs)
  end.

(** Every recorded member exists in its layer. *)
Definition all_exist (ll_Map : LaneletMap) (rfs : References) : Prop :=
  Forall (fun ls => lineStringLayer_exists ll_Map (ls_id ls) = true) (lss rfs)
  /\ Forall (fun llt => laneletLayer_exists ll_Map (llt_id llt) = true) (llts rfs)
  /\ Forall (fun area => areaLayer_exists ll_Map (area_id area) = true) (areas rfs)
  /\ Forall (fun regem => regulatoryElementLayer_exists ll_Map (regem_id regem) = true)
            (regems rfs).

(** The three reverse lookups of a line string all come back empty. *)
Definition no_owner (ll_Map : LaneletMap) (ls : LineString) : bool :=
  is_empty (areaLayer_findUsages_ls ll_Map ls)
  && is_empty (laneletLayer_findUsages_ls ll_Map ls)
  && is_empty (regulatoryElementLayer_findUsages ll_Map ls).


(** ** The call tree of the traversal

    One call of [recurse] is a primitive and a direction.  [callees] lists,
    in source order, the recursive calls the body makes; [record_own] is what
    the body does to the Reference Set after them. *)

Definition Call := (Primitive * direction)%type.

Definition calls_with {A : Type} (inj : A -> Primitive) (check_dir : direction)
  (xs : list A) : list Call :=
  map (fun x => (inj x, check_dir)) xs.

Definition callees (ll_Map : LaneletMap) (c : Call) : list Call :=
  match c with
  | (PPoint p, _) =>
      calls_with PLineString CHECK_PARENT (lineStringLayer_findUsages ll_Map p)
  | (PLineString ls, CHECK_CHILD) =>
      calls_with PPoint CHECK_CHILD (ls_points ls)
  | (PLineString ls, CHECK_PARENT) =>
      calls_with PLanelet CHECK_PARENT (laneletLayer_findUsages_ls ll_Map ls)
      ++ calls_with PArea CHECK_PARENT (areaLayer_findUsages_ls ll_Map ls)
      ++ calls_with PRegulatoryElement CHECK_PARENT
           (regulatoryElementLayer_findUsages ll_Map ls)
  | (PLanelet llt, CHECK_CHILD) =>
      (PLineString (leftBound llt), CHECK_CHILD)
      :: (PLineString (rightBound llt), CHECK_CHILD)
      :: calls_with PRegulatoryElement CHECK_CHILD (llt_regulatoryElements llt)
  | (PLanelet _, CHECK_PARENT) => []
  | (PArea area, CHECK_CHILD) =>
      calls_with PLineString CHECK_CHILD (outerBound area)
      ++ calls_with PLineString CHECK_CHILD (concat (innerBounds area))
      ++ calls_with PRegulatoryElement CHECK_CHILD (area_regulatoryElements area)
  | (PArea _, CHECK_PARENT) => []
  | (PRegulatoryElement regem, CHECK_CHILD) =>
      calls_with Primitive_of_RuleParameter CHECK_CHILD (parameters regem)
  | (PRegulatoryElement regem, CHECK_PARENT) =>
      calls_with PLanelet CHECK_PARENT (laneletLayer_findUsages_regem ll_Map regem)
      ++ calls_with PArea CHECK_PARENT (areaLayer_findUsages_regem ll_Map regem)
  end.

Definition record_own (ll_Map : LaneletMap) (c : Call) (rfs : References)
  : References :=
  match c with
  | (PLineString ls, CHECK_PARENT) =>
      if no_owner ll_Map ls && lineStringLayer_exists ll_Map (ls_id ls)
      then lss_insert ls rfs else rfs
  | (PLanelet llt, CHECK_PARENT) =>
      if laneletLayer_exists ll_Map (llt_id llt) then llts_insert llt rfs else rfs
  | (PArea area, CHECK_PARENT) =>
      if areaLayer_exists ll_Map (area_id area) then areas_insert area rfs else rfs
  | (PRegulatoryElement regem, CHECK_PARENT) =>
      if is_empty (areaLayer_findUsages_regem ll_Map regem)
         && is_empty (laneletLayer_findUsages_regem ll_Map regem)
         && regulatoryElementLayer_exists ll_Map (regem_id regem)
      then regems_insert regem rfs else rfs
  | _ => rfs
  end.

(** The traversal with a bound on the depth of nested calls: [None] when the
    bound is reached before the call tree is exhausted. *)
Fixpoint recurse_fuel (fuel : nat) (ll_Map : LaneletMap) (c : Call)
  (rfs : References) : option References :=
  match fuel with
  | O => None
  | S fuel' =>
      option_map (record_own ll_Map c)
        (fold_left
           (fun acc c' =>
              match acc with
              | Some r => recurse_fuel fuel' ll_Map c' r
              | None => None
              end)
           (callees ll_Map c) (Some rfs))
  end.

(** The layers of the map. *)
Inductive Layer :=
| PointLayer | LineStringLayer | LaneletLayer | AreaLayer | RegulatoryElementLayer.

Definition layer_of (prim : Primitive) : Layer :=
  match prim with
  | PPoint _ => PointLayer
  | PLineString _ => LineStringLayer
  | PLanelet _ => LaneletLayer
  | PArea _ => AreaLayer
  | PRegulatoryElement _ => RegulatoryElementLayer
  end.

(** Size of what a primitive contains, counting lanelets, areas and
    regulatory elements; points and line strings are leaves. *)
Fixpoint size_Lanelet (prim : Lanelet) : nat :=
  match prim with
  | mkLanelet _ _ _ rs => S (list_sum (map size_RegulatoryElement rs))
  end
with size_Area (prim : Area) : nat :=
  match prim with
  | mkArea _ _ _ rs => S (list_sum (map size_RegulatoryElement rs))
  end
with size_RegulatoryElement (prim : RegulatoryElement) : nat :=
  match prim with
  | mkRegulatoryElement _ _ ps => S (list_sum (map size_RuleParameter ps))
  end
with size_RuleParameter (param : RuleParameter) : nat :=
  match param with
  | RP_Point _ => 0
  | RP_LineString _ => 0
  | RP_Lanelet llt => size_Lanelet llt
  | RP_Area area => size_Area area
  end.

(** Number of layer transitions still ahead of an upward call. *)
Definition up_rank (prim : Primitive) : nat :=
  match prim with
  | PPoint _ => 3
  | PLineString _ => 2
  | PRegulatoryElement _ => 1
  | PLanelet _ => 0
  | PArea _ => 0
  end.

(** A measure that every recursive call decreases: upward calls by their
    layer, downward calls by what is left of the containment tree below them
    (a point reached going down turns around and has rank 3; a line string
    going down only calls points). *)
Definition rank (c : Call) : nat :=
  match c with
  | (PPoint _, _) => 3
  | (prim, CHECK_PARENT) => up_rank prim
  | (PLineString _, CHECK_CHILD) => 4
  | (PLanelet llt, CHECK_CHILD) => 4 + size_Lanelet llt
  | (PArea area, CHECK_CHILD) => 4 + size_Area area
  | (PRegulatoryElement regem, CHECK_CHILD) => 4 + size_RegulatoryElement regem
  end.

(** A call of the overload set. *)
Definition recurse_call (ll_Map : LaneletMap) (c : Call) (rfs : References)
  : References :=
  recurse (fst c) ll_Map (snd c) rfs.

(** ** A concrete map

    The layers of a map that holds the listed primitives and answers the
    lookups by id, the way the map interface of the specification (section 6)
    describes them: the owners of a point are the line strings that contain
    it, and so on. *)
Record MapContents := mkMapContents {
  map_points : list Point;
  map_lineStrings : list LineString;
  map_lanelets : list Lanelet;
  map_areas : list Area;
  map_regulatoryElements : list RegulatoryElement
}.

Definition has_id {PrimT : Type} (id_of : PrimT -> Id) (i : Id)
  (xs : list PrimT) : bool :=
  existsb (fun x => Z.eqb (id_of x) i) xs.

Definition refers_to_ls (i : Id) (param : RuleParameter) : bool :=
  match param with
  | RP_LineString ls => Z.eqb (ls_id ls) i
  | _ => false
  end.

Definition LaneletMap_of (c : MapContents) : LaneletMap :=
  {| pointLayer_exists := fun i => has_id point_id i (map_points c);
     lineStringLayer_exists := fun i => has_id ls_id i (map_lineStrings c);
     lineStringLayer_findUsages := fun p =>
       filter (fun ls => has_id point_id (point_id p) (ls_points ls))
              (map_lineStrings c);
     laneletLayer_exists := fun i => has_id llt_id i (map_lanelets c);
     laneletLayer_findUsages_ls := fun ls =>
       filter (fun llt => has_id ls_id (ls_id ls) [leftBound llt; rightBound llt])
              (map_lanelets c);
     laneletLayer_findUsages_regem := fun r =>
       filter (fun llt => has_id regem_id (regem_id r) (llt_regulatoryElements llt))
              (map_lanelets c);
     areaLayer_exists := fun i => has_id area_id i (map_areas c);
     areaLayer_findUsages_ls := fun ls =>
       filter (fun a => has_id ls_id (ls_id ls)
                          (outerBound a ++ concat (innerBounds a)))
              (map_areas c);
     areaLayer_findUsages_regem := fun r =>
       filter (fun a => has_id regem_id (regem_id r) (area_regulatoryElements a))
              (map_areas c);
     regulatoryElementLayer_exists := fun i =>
       has_id regem_id i (map_regulatoryElements c);
     regulatoryElementLayer_findUsages := fun ls =>
       filter (fun r => existsb (refers_to_ls (ls_id ls)) (parameters r))
              (map_regulatoryElements c) |}.

(** The scenario of the specification: lanelet [L1] bounded by [c1] and [c2],
    with the regulatory element [R1] attached, whose stop line is [c3]. *)
Module Scenario.
Local Open Scope Z_scope.

Definition p1 := mkPoint 1.
Definition p2 := mkPoint 2.
Definition p3 := mkPoint 3.
Definition p4 := mkPoint 4.
Definition p5 := mkPoint 5.
Definition p6 := mkPoint 6.
Definition c1 := mkLineString 11 [p1; p2].
Definition c2 := mkLineString 12 [p3; p4].
Definition c3 := mkLineString 13 [p5; p6].
Definition R1 := mkRegulatoryElement 1021 21 [RP_LineString c3].
Definition L1 := mkLanelet 31 c1 c2 [R1].

Definition contents : MapContents :=
  mkMapContents [p1; p2; p3; p4; p5; p6] [c1; c2; c3] [L1] [] [R1].

Definition ll_Map : LaneletMap := LaneletMap_of contents.

(** The same map after [L1] has left the lanelet layer while the reverse
    lookups still report it. *)
Definition stale_Map : LaneletMap :=
  {| pointLayer_exists := pointLayer_exists ll_Map;
     lineStringLayer_exists := lineStringLayer_exists ll_Map;
     lineStringLayer_findUsages := lineStringLayer_findUsages ll_Map;
     laneletLayer_exists := fun _ => false;
     laneletLayer_findUsages_ls := laneletLayer_findUsages_ls ll_Map;
     laneletLayer_findUsages_regem := laneletLayer_findUsages_regem ll_Map;
     areaLayer_exists := areaLayer_exists ll_Map;
     areaLayer_findUsages_ls := areaLayer_findUsages_ls ll_Map;
     areaLayer_findUsages_regem := areaLayer_findUsages_regem ll_Map;
     regulatoryElementLayer_exists := regulatoryElementLayer_exists ll_Map;
     regulatoryElementLayer_findUsages := regulatoryElementLayer_findUsages ll_Map |}.

(** A point that the map has never seen. *)
Definition p_foreign := mkPoint 99.

(** Another object that carries the id of [c1]. *)
Definition c1_view := mkLineString 11 [].

(** The scenario with one more line string, [c4], that nothing uses. *)
Definition p7 := mkPoint 7.
Definition p8 := mkPoint 8.
Definition c4 := mkLineString 14 [p7; p8].
Definition free_Map : LaneletMap :=
  LaneletMap_of
    (mkMapContents [p1; p2; p3; p4; p5; p6; p7; p8] [c1; c2; c3; c4]
                   [L1] [] [R1]).

End Scenario.

(** Two regulatory elements under one id: the objects [R2] and [R2_view] both
    carry id 71 and refer to the line string [c5]; nothing carries them.
    They are two objects at two addresses, which the hash sends to two
    buckets.  [R2_near] is a third object with that id which the hash sends
    to the bucket of [R2]. *)
Module Duplicate.
Local Open Scope Z_scope.

Definition p9 := mkPoint 9.
Definition p10 := mkPoint 10.
Definition c5 := mkLineString 15 [p9; p10].
Definition R2 := mkRegulatoryElement 2071 71 [RP_LineString c5].
Definition R2_view := mkRegulatoryElement 3071 71 [RP_LineString c5].

Definition ll_Map : LaneletMap :=
  LaneletMap_of (mkMapContents [p9; p10] [c5] [] [] [R2; R2_view]).
End Duplicate.

(** ** Comparing Reference Sets *)

(** Every id recorded in [r] is recorded in [r'], set by set. *)
Definition included (r r' : References) : Prop :=
  incl (ids ls_id (lss r)) (ids ls_id (lss r'))
  /\ incl (ids llt_id (llts r)) (ids llt_id (llts r'))
  /\ incl (ids area_id (areas r)) (ids area_id (areas r'))
  /\ incl (ids regem_id (regems r)) (ids regem_id (regems r')).

(** The calls made, directly or through other calls, while a call runs. *)
Inductive reaches (ll_Map : LaneletMap) : Call -> Call -> Prop :=
| reaches_here (c : Call) : reaches ll_Map c c
| reaches_callee (c c' t : Call) :
    In c' (callees ll_Map c) -> reaches ll_Map c' t -> reaches ll_Map c t.

(** A regulatory element that neither a lanelet nor an area carries. *)
Definition no_carrier (ll_Map : LaneletMap) (regem : RegulatoryElement) : bool :=
  is_empty (areaLayer_findUsages_regem ll_Map regem)
  && is_empty (laneletLayer_findUsages_regem ll_Map regem).

(** Every member of [r] is one that some call reached from [c0] records for
    its own primitive. *)
Definition recorded_by_reached (ll_Map : LaneletMap) (c0 : Call)
  (r : References) : Prop :=
  Forall (fun x => exists t, reaches ll_Map c0 t
                   /\ In x (lss (record_own ll_Map t empty_References))) (lss r)
  /\ Forall (fun x => exists t, reaches ll_Map c0 t
                      /\ In x (llts (record_own ll_Map t empty_References)))
       (llts r)
  /\ Forall (fun x => exists t, reaches ll_Map c0 t
                      /\ In x (areas (record_own ll_Map t empty_References)))
       (areas r)
  /\ Forall (fun x => exists t, reaches ll_Map c0 t
                      /\ In x (regems (record_own ll_Map t empty_References)))
       (regems r).

(** ** Filters and extractors (query.cpp, lines 200-408)

    The attributes of a lanelet and the concrete classes of regulatory
    elements belong to the lanelet2 library.  The functions below consume
    them through the member calls gathered here: [hasAttribute] and
    [attribute] on the subtype, the dynamic casts behind
    [regulatoryElementsAs], [getManeuver] and [stopLine] of a right of way,
    [stopLine] of a traffic light, [refLines] and [type] of a traffic sign. *)

(** [lanelet::ManeuverType] *)
Inductive ManeuverType := Maneuver_Yield | Maneuver_RightOfWay | Maneuver_Unknown.

Record Lanelet2 := mkLanelet2 {
  attribute_Subtype : Lanelet -> option String.string;
  is_TrafficLight : RegulatoryElement -> bool;
  is_AutowareTrafficLight : RegulatoryElement -> bool;
  is_RightOfWay : RegulatoryElement -> bool;
  is_TrafficSign : RegulatoryElement -> bool;
  getManeuver : RegulatoryElement -> Lanelet -> ManeuverType;
  RightOfWay_stopLine : RegulatoryElement -> option LineString;
  TrafficLight_stopLine : RegulatoryElement -> option LineString;
  refLines : RegulatoryElement -> list LineString;
  TrafficSign_type : RegulatoryElement -> String.string
}.

(** [lanelet::AttributeValueString::Crosswalk] and [::Road], constants of
    lanelet2. *)
Definition AttributeValueString_Crosswalk : String.string := "crosswalk"%string.
Definition AttributeValueString_Road : String.string := "road"%string.

(** [v.push_back(x)] *)
Definition push_back {A : Type} (v : list A) (x : A) : list A := v ++ [x].

(** [ll.regulatoryElementsAs<T>()]: the regulatory elements of the lanelet
    that are of class [T], in their order. *)
Definition regulatoryElementsAs (is_T : RegulatoryElement -> bool)
  (ll : Lanelet) : list RegulatoryElement :=
  filter is_T (llt_regulatoryElements ll).

(** [query::subtypeLanelets] (lines 200-219). *)
Definition subtypeLanelets (api : Lanelet2) (lls : list Lanelet)
  (subtype : String.string) : list Lanelet :=
  fold_left
    (fun subtype_lanelets ll =>
       match attribute_Subtype api ll with
       | Some value =>
           if String.eqb value subtype then push_back subtype_lanelets ll
           else subtype_lanelets
       | None => subtype_lanelets
       end)
    lls [].

(** [query::crosswalkLanelets] (lines 221-224). *)
Definition crosswalkLanelets (api : Lanelet2) (lls : list Lanelet)
  : list Lanelet :=
  subtypeLanelets api lls AttributeValueString_Crosswalk.

(** [query::roadLanelets] (lines 226-229). *)
Definition roadLanelets (api : Lanelet2) (lls : list Lanelet) : list Lanelet :=
  subtypeLanelets api lls AttributeValueString_Road.

(** The search of lines 245-257 (and 278-290): the element is appended unless
    an element with its id is already in the array. *)
Definition push_back_unique (tl_reg_elems : list RegulatoryElement)
  (tl_ptr : RegulatoryElement) : list RegulatoryElement :=
  let id := regem_id tl_ptr in
  let unique_id :=
    negb (existsb (fun ii => Z.eqb id (regem_id ii)) tl_reg_elems) in
  if unique_id then push_back tl_reg_elems tl_ptr else tl_reg_elems.

(** [query::trafficLights] (lines 231-261). *)
Definition trafficLights (api : Lanelet2) (lanelets : list Lanelet)
  : list RegulatoryElement :=
  fold_left
    (fun tl_reg_elems ll =>
       let ll_tl_re := regulatoryElementsAs (is_TrafficLight api) ll in
       fold_left push_back_unique ll_tl_re tl_reg_elems)
    lanelets [].

(** [query::autowareTrafficLights] (lines 263-294). *)
Definition autowareTrafficLights (api : Lanelet2) (lanelets : list Lanelet)
  : list RegulatoryElement :=
  fold_left
    (fun tl_reg_elems ll =>
       let ll_tl_re := regulatoryElementsAs (is_AutowareTrafficLight api) ll in
       fold_left push_back_unique ll_tl_re tl_reg_elems)
    lanelets [].

(** [query::stopLinesLanelet] (lines 312-365).  The tests [size() > 0] around
    the three loops change nothing: a loop over an empty array does
    nothing. *)
Definition stopLinesLanelet (api : Lanelet2) (ll : Lanelet) : list LineString :=
  let stoplines := [] in
  let right_of_way_reg_elems := regulatoryElementsAs (is_RightOfWay api) ll in
  let stoplines :=
    fold_left
      (fun stoplines j =>
         match getManeuver api j ll with
         | Maneuver_Yield =>
             match RightOfWay_stopLine api j with
             | Some row_stopline => push_back stoplines row_stopline
             | None => stoplines
             end
         | _ => stoplines
         end)
      right_of_way_reg_elems stoplines in
  let traffic_light_reg_elems := regulatoryElementsAs (is_TrafficLight api) ll in
  let stoplines :=
    fold_left
      (fun stoplines j =>
         match TrafficLight_stopLine api j with
         | Some traffic_light_stopline => push_back stoplines traffic_light_stopline
         | None => stoplines
         end)
      traffic_light_reg_elems stoplines in
  let traffic_sign_reg_elems := regulatoryElementsAs (is_TrafficSign api) ll in
  fold_left
    (fun stoplines j =>
       match refLines api j with
       | front :: _ => push_back stoplines front
       | [] => stoplines
       end)
    traffic_sign_reg_elems stoplines.

(** [query::stopLinesLanelets] (lines 297-309). *)
Definition stopLinesLanelets (api : Lanelet2) (lanelets : list Lanelet)
  : list LineString :=
  fold_left
    (fun stoplines lli => stoplines ++ stopLinesLanelet api lli)
    lanelets [].

(** The body of the inner loop of [query::stopSignStopLines] (lines 206-224),
    on the array of stop lines and the [std::set] of ids seen so far. *)
Definition stopSignStopLines_step (api : Lanelet2) (stop_sign_id : String.string)
  (state : list LineString * list Id) (ts : RegulatoryElement)
  : list LineString * list Id :=
  let (stoplines, checklist) := state in
  if negb (String.eqb (TrafficSign_type api ts) stop_sign_id) then state
  else
    match refLines api ts with
    | front :: _ =>
        let id := ls_id front in
        if negb (existsb (Z.eqb id) checklist)
        then (push_back stoplines front, id :: checklist)
        else state
    | [] => state
    end.

(** [query::stopSignStopLines] (lines 367-408). *)
Definition stopSignStopLines (api : Lanelet2) (lanelets : list Lanelet)
  (stop_sign_id : String.string) : list LineString :=
  fst (fold_left
         (fun state ll =>
            let traffic_sign_reg_elems :=
              regulatoryElementsAs (is_TrafficSign api) ll in
            fold_left (stopSignStopLines_step api stop_sign_id)
              traffic_sign_reg_elems state)
         lanelets ([], [])).

(** Whether the lanelet has the subtype attribute with the given value. *)
Definition has_subtype (api : Lanelet2) (subtype : String.string)
  (ll : Lanelet) : bool :=
  match attribute_Subtype api ll with
  | Some value => String.eqb value subtype
  | None => false
  end.

(** What one regulatory element contributes to [stopLinesLanelet]: a right
    of way its stop line when the lanelet yields, a traffic light its stop
    line, a traffic sign the first of its reference lines. *)
Definition yield_stopLine (api : Lanelet2) (ll : Lanelet)
  (j : RegulatoryElement) : list LineString :=
  match getManeuver api j ll with
  | Maneuver_Yield =>
      match RightOfWay_stopLine api j with
      | Some row_stopline => [row_stopline]
      | None => []
      end
  | _ => []
  end.

Definition light_stopLine (api : Lanelet2) (j : RegulatoryElement)
  : list LineString :=
  match TrafficLight_stopLine api j with
  | Some traffic_light_stopline => [traffic_light_stopline]
  | None => []
  end.

Definition sign_stopLine (api : Lanelet2) (j : RegulatoryElement)
  : list LineString :=
  match refLines api j with
  | front :: _ => [front]
  | [] => []
  end.

(** The set of ids seen holds the ids of the stop lines and no stop line id
    occurs twice. *)
Definition checklist_agrees (st : list LineString * list Id) : Prop :=
  (forall i, In i (snd st) <-> In i (ids ls_id (fst st)))
  /\ NoDup (ids ls_id (fst st)).

(** A junction to try the extractors on: lanelet [La] (a road) yields at the
    right of way [ROW] with stop line [s2], and carries the traffic light
    [TL] (stop line [s1]) and a stop sign [TS] (reference line [s2]); lanelet
    [Lb] (a crosswalk) carries [TL], the autoware traffic light [ATL], [TS]
    and a second sign [TS2] of another type; [Lc] has no subtype and carries
    nothing. *)
Module Junction.
Local Open Scope Z_scope.

Definition s1 := mkLineString 41 [].
Definition s2 := mkLineString 42 [].
Definition b := mkLineString 43 [].
Definition TL := mkRegulatoryElement 1051 51 [RP_LineString s1].
Definition ATL := mkRegulatoryElement 1052 52 [RP_LineString s1].
Definition ROW := mkRegulatoryElement 1053 53 [RP_LineString s2].
Definition TS := mkRegulatoryElement 1054 54 [RP_LineString s2].
Definition TS2 := mkRegulatoryElement 1055 55 [RP_LineString s1].
Definition La := mkLanelet 61 b b [TL; ROW; TS].
Definition Lb := mkLanelet 62 b b [TL; ATL; TS; TS2].
Definition Lc := mkLanelet 63 b b [].

Definition api : Lanelet2 :=
  {| attribute_Subtype := fun ll =>
       if llt_id ll =? 61 then Some AttributeValueString_Road
       else if llt_id ll =? 62 then Some AttributeValueString_Crosswalk
       else None;
     is_TrafficLight := fun r => (regem_id r =? 51) || (regem_id r =? 52);
     is_AutowareTrafficLight := fun r => regem_id r =? 52;
     is_RightOfWay := fun r => regem_id r =? 53;
     is_TrafficSign := fun r => (regem_id r =? 54) || (regem_id r =? 55);
     getManeuver := fun r ll =>
       if (regem_id r =? 53) && (llt_id ll =? 61) then Maneuver_Yield
       else Maneuver_Unknown;
     RightOfWay_stopLine := fun r =>
       if regem_id r =? 53 then Some s2 else None;
     TrafficLight_stopLine := fun r =>
       if (regem_id r =? 51) || (regem_id r =? 52) then Some s1 else None;
     refLines := fun r =>
       if regem_id r =? 54 then [s2; s1]
       else if regem_id r =? 55 then [s1] else [];
     TrafficSign_type := fun r =>
       if regem_id r =? 54 then "stop_sign"%string else "yield"%string |}.
End Junction.



(** * Properties *)

(** ** Loops *)

Arguments for_each : simpl never.

Lemma for_each_nil (A : Type) (body : A -> References -> References) rfs :
  for_each [] body rfs = rfs.
Proof. reflexivity. Qed.

Lemma for_each_cons (A : Type) (x : A) xs body rfs :
  for_each (x :: xs) body rfs = for_each xs body (body x rfs).
Proof. reflexivity. Qed.

Lemma for_each_app (A : Type) (xs ys : list A) body rfs :
  for_each (xs ++ ys) body rfs = for_each ys body (for_each xs body rfs).
Proof. unfold for_each. apply fold_left_app. Qed.

Lemma for_each_concat (A : Type) (xss : list (list A)) body rfs :
  for_each xss (fun xs => for_each xs body) rfs = for_each (concat xss) body rfs.
Proof.
  revert rfs. induction xss as [|xs xss IH]; intros rfs.
  - reflexivity.
  - rewrite for_each_cons. cbn [concat]. rewrite for_each_app. apply IH.
Qed.

Lemma for_each_ext (A : Type) (xs : list A) body1 body2 rfs :
  (forall x r, In x xs -> body1 x r = body2 x r) ->
  for_each xs body1 rfs = for_each xs body2 rfs.
Proof.
  revert rfs. induction xs as [|x xs IH]; intros rfs Hext.
  - reflexivity.
  - rewrite !for_each_cons, (Hext x rfs (or_introl eq_refl)).
    apply IH. intros y r Hy. apply Hext. now right.
Qed.

(** A property of the Reference Set that every iteration keeps is kept by
    the loop. *)
Lemma for_each_keeps (A : Type) (P : References -> Prop) (xs : list A) body :
  (forall x r, In x xs -> P r -> P (body x r)) ->
  forall rfs, P rfs -> P (for_each xs body rfs).
Proof.
  induction xs as [|x xs IH]; intros Hbody rfs Hrfs.
  - exact Hrfs.
  - rewrite for_each_cons. apply IH.
    + intros y r Hy. apply Hbody. now right.
    + apply Hbody; [now left | exact Hrfs].
Qed.

Lemma fold_calls_with (A : Type) (inj : A -> Primitive) ll_Map check_dir
  (xs : list A) rfs :
  fold_left (fun r c => recurse_call ll_Map c r) (calls_with inj check_dir xs) rfs
  = for_each xs (fun x => recurse (inj x) ll_Map check_dir) rfs.
Proof.
  revert rfs. induction xs as [|x xs IH]; intros rfs.
  - reflexivity.
  - simpl. rewrite for_each_cons. apply IH.
Qed.

(** ** The body of [recurse], call by call *)

Lemma recurse_Point_owners (p : Point) ll_Map check_dir rfs :
  recurse p ll_Map check_dir rfs
  = for_each (lineStringLayer_findUsages ll_Map p)
      (fun ls => recurse ls ll_Map CHECK_PARENT) rfs.
Proof.
  unfold recurse, Recurse_Point, recurse_Point.
  destruct (lineStringLayer_findUsages ll_Map p); reflexivity.
Qed.

Lemma recurse_LineString_down (ls : LineString) ll_Map rfs :
  recurse ls ll_Map CHECK_CHILD rfs
  = for_each (ls_points ls) (fun p => recurse p ll_Map CHECK_CHILD) rfs.
Proof. reflexivity. Qed.

Lemma recurse_Lanelet_up_eq (llt : Lanelet) ll_Map rfs :
  recurse_Lanelet llt ll_Map CHECK_PARENT rfs = recurse_Lanelet_up llt ll_Map rfs.
Proof. destruct llt; reflexivity. Qed.

Lemma recurse_Area_up_eq (area : Area) ll_Map rfs :
  recurse_Area area ll_Map CHECK_PARENT rfs = recurse_Area_up area ll_Map rfs.
Proof. destruct area; reflexivity. Qed.

Lemma recurse_RegulatoryElement_up_eq (regem : RegulatoryElement) ll_Map rfs :
  recurse_RegulatoryElement regem ll_Map CHECK_PARENT rfs
  = recurse_RegulatoryElement_up regem ll_Map rfs.
Proof. destruct regem; reflexivity. Qed.

Lemma for_each_Lanelet_up (xs : list Lanelet) ll_Map rfs :
  for_each xs (fun llt => recurse llt ll_Map CHECK_PARENT) rfs
  = for_each xs (fun llt => recurse_Lanelet_up llt ll_Map) rfs.
Proof. apply for_each_ext. intros x r _. apply recurse_Lanelet_up_eq. Qed.

Lemma for_each_Area_up (xs : list Area) ll_Map rfs :
  for_each xs (fun area => recurse area ll_Map CHECK_PARENT) rfs
  = for_each xs (fun area => recurse_Area_up area ll_Map) rfs.
Proof. apply for_each_ext. intros x r _. apply recurse_Area_up_eq. Qed.

Lemma for_each_RegulatoryElement_up (xs : list RegulatoryElement) ll_Map rfs :
  for_each xs (fun regem => recurse regem ll_Map CHECK_PARENT) rfs
  = for_each xs (fun regem => recurse_RegulatoryElement_up regem ll_Map) rfs.
Proof. apply for_each_ext. intros x r _. apply recurse_RegulatoryElement_up_eq. Qed.

Lemma recurse_LineString_parent (ls : LineString) ll_Map rfs :
  recurse ls ll_Map CHECK_PARENT rfs
  = record_own ll_Map (PLineString ls, CHECK_PARENT)
      (for_each (regulatoryElementLayer_findUsages ll_Map ls)
         (fun regem => recurse regem ll_Map CHECK_PARENT)
         (for_each (areaLayer_findUsages_ls ll_Map ls)
            (fun area => recurse area ll_Map CHECK_PARENT)
            (for_each (laneletLayer_findUsages_ls ll_Map ls)
               (fun llt => recurse llt ll_Map CHECK_PARENT) rfs))).
Proof.
  rewrite for_each_RegulatoryElement_up, for_each_Area_up, for_each_Lanelet_up.
  reflexivity.
Qed.

Lemma recurse_Lanelet_parent (llt : Lanelet) ll_Map rfs :
  recurse llt ll_Map CHECK_PARENT rfs
  = record_own ll_Map (PLanelet llt, CHECK_PARENT) rfs.
Proof. destruct llt; reflexivity. Qed.

Lemma recurse_Area_parent (area : Area) ll_Map rfs :
  recurse area ll_Map CHECK_PARENT rfs
  = record_own ll_Map (PArea area, CHECK_PARENT) rfs.
Proof. destruct area; reflexivity. Qed.

Lemma recurse_RegulatoryElement_parent (regem : RegulatoryElement) ll_Map rfs :
  recurse regem ll_Map CHECK_PARENT rfs
  = record_own ll_Map (PRegulatoryElement regem, CHECK_PARENT)
      (for_each (areaLayer_findUsages_regem ll_Map regem)
         (fun area => recurse area ll_Map CHECK_PARENT)
         (for_each (laneletLayer_findUsages_regem ll_Map regem)
            (fun llt => recurse llt ll_Map CHECK_PARENT) rfs)).
Proof.
  rewrite for_each_Area_up, for_each_Lanelet_up.
  destruct regem; reflexivity.
Qed.

Lemma recurse_Lanelet_down (llt : Lanelet) ll_Map rfs :
  recurse llt ll_Map CHECK_CHILD rfs
  = for_each (llt_regulatoryElements llt)
      (fun regem => recurse regem ll_Map CHECK_CHILD)
      (recurse (rightBound llt) ll_Map CHECK_CHILD
         (recurse (leftBound llt) ll_Map CHECK_CHILD rfs)).
Proof. destruct llt; reflexivity. Qed.

Lemma recurse_Area_down (area : Area) ll_Map rfs :
  recurse area ll_Map CHECK_CHILD rfs
  = for_each (area_regulatoryElements area)
      (fun regem => recurse regem ll_Map CHECK_CHILD)
      (for_each (concat (innerBounds area))
         (fun ls => recurse ls ll_Map CHECK_CHILD)
         (for_each (outerBound area)
            (fun ls => recurse ls ll_Map CHECK_CHILD) rfs)).
Proof.
  destruct area as [i outer inner rs].
  unfold recurse, Recurse_Area, Recurse_LineString, Recurse_RegulatoryElement.
  cbn [recurse_Area area_regulatoryElements innerBounds outerBound].
  now rewrite for_each_concat.
Qed.

Lemma recurse_RegulatoryElement_down (regem : RegulatoryElement) ll_Map rfs :
  recurse regem ll_Map CHECK_CHILD rfs
  = for_each (parameters regem)
      (fun param => recurse (Primitive_of_RuleParameter param) ll_Map CHECK_CHILD)
      rfs.
Proof.
  destruct regem as [i ps].
  unfold recurse, Recurse_RegulatoryElement.
  cbn [recurse_RegulatoryElement parameters].
  apply for_each_ext. intros [p|ls|llt|area] r _; reflexivity.
Qed.

(** Every call runs its callees in order and then records its own
    primitive. *)
Lemma recurse_call_unfold ll_Map (c : Call) rfs :
  recurse_call ll_Map c rfs
  = record_own ll_Map c
      (fold_left (fun r c' => recurse_call ll_Map c' r) (callees ll_Map c) rfs).
Proof.
  destruct c as [[p|ls|llt|area|regem] [|]]; unfold recurse_call at 1;
    cbn [fst snd callees fold_left];
    rewrite ?fold_left_app, ?fold_calls_with.
  - exact (recurse_Point_owners p ll_Map CHECK_CHILD rfs).
  - exact (recurse_Point_owners p ll_Map CHECK_PARENT rfs).
  - exact (recurse_LineString_down ls ll_Map rfs).
  - exact (recurse_LineString_parent ls ll_Map rfs).
  - exact (recurse_Lanelet_down llt ll_Map rfs).
  - exact (recurse_Lanelet_parent llt ll_Map rfs).
  - exact (recurse_Area_down area ll_Map rfs).
  - exact (recurse_Area_parent area ll_Map rfs).
  - exact (recurse_RegulatoryElement_down regem ll_Map rfs).
  - exact (recurse_RegulatoryElement_parent regem ll_Map rfs).
Qed.

(** ** Every recursive call decreases the rank *)

Lemma in_calls_with (A : Type) (inj : A -> Primitive) check_dir xs (c : Call) :
  In c (calls_with inj check_dir xs) ->
  exists x, In x xs /\ c = (inj x, check_dir).
Proof.
  unfold calls_with. rewrite in_map_iff. intros [x [Hc Hx]].
  exists x. split; [exact Hx | now symmetry].
Qed.

Lemma le_list_sum (A : Type) (f : A -> nat) x xs :
  In x xs -> f x <= list_sum (map f xs).
Proof.
  induction xs as [|y ys IH]; intros Hin; [contradiction|].
  simpl. destruct Hin as [->|Hin]; [lia|].
  specialize (IH Hin). lia.
Qed.

Lemma size_Lanelet_regem llt regem :
  In regem (llt_regulatoryElements llt) ->
  size_RegulatoryElement regem < size_Lanelet llt.
Proof.
  destruct llt as [i lb rb rs]. cbn [llt_regulatoryElements size_Lanelet].
  intros Hin. apply (le_list_sum _ size_RegulatoryElement) in Hin. lia.
Qed.

Lemma size_Area_regem area regem :
  In regem (area_regulatoryElements area) ->
  size_RegulatoryElement regem < size_Area area.
Proof.
  destruct area as [i o inn rs]. cbn [area_regulatoryElements size_Area].
  intros Hin. apply (le_list_sum _ size_RegulatoryElement) in Hin. lia.
Qed.

Lemma size_RegulatoryElement_param regem param :
  In param (parameters regem) ->
  size_RuleParameter param < size_RegulatoryElement regem.
Proof.
  destruct regem as [i ps]. cbn [parameters size_RegulatoryElement].
  intros Hin. apply (le_list_sum _ size_RuleParameter) in Hin. lia.
Qed.

Lemma size_Lanelet_pos llt : 0 < size_Lanelet llt.
Proof. destruct llt; cbn [size_Lanelet]; lia. Qed.

Lemma size_Area_pos area : 0 < size_Area area.
Proof. destruct area; cbn [size_Area]; lia. Qed.

Lemma rank_RuleParameter param regem :
  In param (parameters regem) ->
  rank (Primitive_of_RuleParameter param, CHECK_CHILD)
  < rank (PRegulatoryElement regem, CHECK_CHILD).
Proof.
  intros Hin. apply size_RegulatoryElement_param in Hin.
  destruct param as [p|ls|llt|area];
    cbn [Primitive_of_RuleParameter rank size_RuleParameter] in *; lia.
Qed.

Lemma callees_rank ll_Map (c c' : Call) :
  In c' (callees ll_Map c) -> rank c' < rank c.
Proof.
  destruct c as [[p|ls|llt|area|regem] [|]]; cbn [callees];
    rewrite ?in_app_iff; intros Hin;
    repeat match goal with
      | H : _ \/ _ |- _ => destruct H as [H|H]
      | H : In _ (calls_with _ _ _) |- _ =>
          apply in_calls_with in H; destruct H as [? [? ->]]
      | H : In _ (_ :: _) |- _ => cbn [In] in H
      | H : In _ [] |- _ => contradiction H
      | H : _ = c' |- _ => subst c'
      end;
    try match goal with
      | H : In _ (llt_regulatoryElements _) |- _ => apply size_Lanelet_regem in H
      | H : In _ (area_regulatoryElements _) |- _ => apply size_Area_regem in H
      | H : In _ (parameters _) |- _ => apply rank_RuleParameter in H; exact H
      end;
    try pose proof (size_Lanelet_pos llt);
    try pose proof (size_Area_pos area);
    cbn [rank up_rank]; lia.
Qed.

Lemma rank_up (prim : Primitive) : rank (prim, CHECK_PARENT) <= 3.
Proof. destruct prim; cbn [rank up_rank]; lia. Qed.

(** ** Reasoning over the whole call tree *)

(** What every body keeps when it records its own primitive, the traversal
    keeps as a whole, whatever the primitive and the direction. *)
Lemma recurse_call_keeps ll_Map (P : References -> Prop) :
  (forall c r, P r -> P (record_own ll_Map c r)) ->
  forall c rfs, P rfs -> P (recurse_call ll_Map c rfs).
Proof.
  intros Hown c.
  remember (rank c) as n eqn:Hn. revert c Hn.
  induction n as [n IH] using lt_wf_ind. intros c -> rfs Hrfs.
  rewrite recurse_call_unfold. apply Hown.
  assert (Hcs : forall c', In c' (callees ll_Map c) -> rank c' < rank c)
    by (intros c'; apply callees_rank).
  revert rfs Hrfs. induction (callees ll_Map c) as [|c' cs IHcs]; intros rfs Hrfs.
  - exact Hrfs.
  - cbn [fold_left]. apply IHcs.
    + intros c'' Hin. apply Hcs. now right.
    + apply (IH (rank c')); [apply Hcs; now left | reflexivity | exact Hrfs].
Qed.

Lemma recurse_keeps ll_Map (P : References -> Prop) :
  (forall c r, P r -> P (record_own ll_Map c r)) ->
  forall (prim : Primitive) check_dir rfs,
    P rfs -> P (recurse prim ll_Map check_dir rfs).
Proof.
  intros Hown prim check_dir rfs.
  exact (recurse_call_keeps ll_Map P Hown (prim, check_dir) rfs).
Qed.

Lemma fold_fuel_enough ll_Map n (cs : list Call) :
  (forall c, In c cs -> forall r,
      recurse_fuel n ll_Map c r = Some (recurse_call ll_Map c r)) ->
  forall rfs,
    fold_left
      (fun acc c' =>
         match acc with
         | Some r => recurse_fuel n ll_Map c' r
         | None => None
         end) cs (Some rfs)
    = Some (fold_left (fun r c' => recurse_call ll_Map c' r) cs rfs).
Proof.
  induction cs as [|c cs IH]; intros Hcs rfs.
  - reflexivity.
  - cbn [fold_left]. rewrite (Hcs c (or_introl eq_refl)).
    apply IH. intros c' Hin. apply Hcs. now right.
Qed.

(** With more fuel than the rank of the call, the bounded traversal comes
    back with the result of [recurse]. *)
Lemma recurse_fuel_enough ll_Map n :
  forall c rfs, rank c < n ->
    recurse_fuel n ll_Map c rfs = Some (recurse_call ll_Map c rfs).
Proof.
  induction n as [|n IH]; intros c rfs Hlt; [lia|].
  cbn [recurse_fuel]. rewrite fold_fuel_enough.
  - cbn [option_map]. now rewrite <- recurse_call_unfold.
  - intros c' Hin r. apply IH. apply (callees_rank ll_Map) in Hin. lia.
Qed.

(** ** The result sets *)

Section Sets.
Context {PrimT : Type} (id_of : PrimT -> Id).

Lemma contains_In (x : PrimT) s :
  contains id_of x s = true <-> In (id_of x) (ids id_of s).
Proof.
  unfold contains, ids, comparator. rewrite existsb_exists, in_map_iff.
  split; intros [y [H1 H2]]; exists y.
  - apply Z.eqb_eq in H2. now split.
  - split; [exact H2 | now apply Z.eqb_eq].
Qed.


Lemma insert_Forall (P : PrimT -> Prop) (x : PrimT) s :
  P x -> Forall P s -> Forall P (insert id_of x s).
Proof.
  intros Hx Hs. unfold insert.
  destruct (existsb (comparator id_of x) s); [exact Hs | now constructor].
Qed.

Lemma contains_insert (x : PrimT) s :
  contains id_of x (insert id_of x s) = true.
Proof.
  unfold insert. destruct (existsb (comparator id_of x) s) eqn:Hex.
  - exact Hex.
  - unfold contains, comparator. cbn [existsb]. now rewrite Z.eqb_refl.
Qed.

Lemma contains_insert_mono (x y : PrimT) s :
  contains id_of y s = true -> contains id_of y (insert id_of x s) = true.
Proof.
  intros Hy. unfold insert.
  destruct (existsb (comparator id_of x) s); [exact Hy|].
  unfold contains in *. cbn [existsb]. rewrite Hy. apply orb_true_r.
Qed.

Lemma contains_same_id (x y : PrimT) s :
  id_of x = id_of y -> contains id_of x s = contains id_of y s.
Proof.
  intros Hid. unfold contains, comparator. now rewrite Hid.
Qed.

Lemma insert_present (x : PrimT) s :
  contains id_of x s = true -> insert id_of x s = s.
Proof. unfold insert, contains. now intros ->. Qed.

Lemma insert_same_id (x y : PrimT) s :
  id_of x = id_of y -> insert id_of x (insert id_of y s) = insert id_of y s.
Proof.
  intros Hid. apply insert_present.
  rewrite (contains_same_id x y _ Hid). apply contains_insert.
Qed.

Lemma contains_Forall (P : Id -> Prop) (x : PrimT) s :
  Forall (fun y => P (id_of y)) s -> contains id_of x s = true -> P (id_of x).
Proof.
  intros Hs Hx. unfold contains in Hx. apply existsb_exists in Hx.
  destruct Hx as [y [Hy Heq]]. apply Z.eqb_eq in Heq. rewrite Heq.
  rewrite Forall_forall in Hs. now apply Hs.
Qed.
End Sets.

(** ** The concrete scenario *)

(** C1.  In a map where line string [c3] bounds no lanelet and no area and is
    referenced by the single regulatory element [R1], itself attached to the
    single lanelet [L1] which exists in the lanelet layer, going up from [c3]
    with an empty Reference Set, which is what [findReferences(c3, map)]
    does, gives exactly the set holding [L1] alone: no line string, no area
    and no regulatory element is recorded.  [R1] is left out because its
    owner lookup is not empty, [c3] because its regulatory-element lookup is
    not empty. *)
Theorem findReferences_stop_line_scenario
  (ll_Map : LaneletMap) (c3 : LineString) (R1 : RegulatoryElement) (L1 : Lanelet) :
  laneletLayer_findUsages_ls ll_Map c3 = [] ->
  areaLayer_findUsages_ls ll_Map c3 = [] ->
  regulatoryElementLayer_findUsages ll_Map c3 = [R1] ->
  laneletLayer_findUsages_regem ll_Map R1 = [L1] ->
  areaLayer_findUsages_regem ll_Map R1 = [] ->
  laneletLayer_exists ll_Map (llt_id L1) = true ->
  recurse c3 ll_Map CHECK_PARENT empty_References
  = {| lss := []; llts := [L1]; areas := []; regems := [] |}
  /\ findReferences c3 ll_Map
     = {| lss := []; llts := [L1]; areas := []; regems := [] |}
  /\ records (findReferences c3 ll_Map) (PRegulatoryElement R1) = false
  /\ records (findReferences c3 ll_Map) (PLineString c3) = false.
Proof.
  intros Hllt Harea Hregem Howner Hownera Hex.
  assert (Heq : recurse c3 ll_Map CHECK_PARENT empty_References
                = {| lss := []; llts := [L1]; areas := []; regems := [] |}).
  { rewrite recurse_LineString_parent.
    rewrite Hllt, Harea, Hregem, !for_each_nil, for_each_cons, for_each_nil.
    rewrite recurse_RegulatoryElement_parent.
    rewrite Howner, Hownera, for_each_nil, for_each_cons, for_each_nil.
    rewrite recurse_Lanelet_parent.
    cbn [record_own]. unfold no_owner.
    rewrite Hex, Hllt, Harea, Hregem, Howner, Hownera.
    reflexivity. }
  unfold findReferences. rewrite Heq.
  split; [reflexivity | split; [reflexivity | split; reflexivity]].
Qed.

Lemma findReferences_stop_line_scenario_witness :
  recurse Scenario.c3 Scenario.ll_Map CHECK_PARENT empty_References
  = {| lss := []; llts := [Scenario.L1]; areas := []; regems := [] |}
  /\ findReferences Scenario.c3 Scenario.ll_Map
     = {| lss := []; llts := [Scenario.L1]; areas := []; regems := [] |}
  /\ records (findReferences Scenario.c3 Scenario.ll_Map)
       (PRegulatoryElement Scenario.R1) = false
  /\ records (findReferences Scenario.c3 Scenario.ll_Map)
       (PLineString Scenario.c3) = false.
Proof.
  apply (findReferences_stop_line_scenario
           Scenario.ll_Map Scenario.c3 Scenario.R1 Scenario.L1);
    reflexivity.
Defined.

(** ** Free-standing line strings *)

(** Only a line string entered upward touches the set of line strings. *)
Lemma record_own_lss ll_Map (c : Call) rfs :
  layer_of (fst c) <> LineStringLayer ->
  lss (record_own ll_Map c rfs) = lss rfs.
Proof.
  destruct c as [[p|ls|llt|area|regem] [|]]; cbn [fst layer_of record_own];
    intros Hlayer; try reflexivity; try congruence.
  - destruct (laneletLayer_exists ll_Map (llt_id llt)); reflexivity.
  - destruct (areaLayer_exists ll_Map (area_id area)); reflexivity.
  - destruct (is_empty _ && is_empty _ && _); reflexivity.
Qed.

Lemma recurse_Lanelet_up_lss llt ll_Map rfs :
  lss (recurse_Lanelet_up llt ll_Map rfs) = lss rfs.
Proof.
  exact (record_own_lss ll_Map (PLanelet llt, CHECK_PARENT) rfs
           ltac:(discriminate)).
Qed.

Lemma recurse_Area_up_lss area ll_Map rfs :
  lss (recurse_Area_up area ll_Map rfs) = lss rfs.
Proof.
  exact (record_own_lss ll_Map (PArea area, CHECK_PARENT) rfs
           ltac:(discriminate)).
Qed.

Lemma for_each_lss (A : Type) (xs : list A) body :
  (forall x r, lss (body x r) = lss r) ->
  forall rfs, lss (for_each xs body rfs) = lss rfs.
Proof.
  intros Hbody rfs.
  apply (for_each_keeps A (fun r => lss r = lss rfs)); [|reflexivity].
  intros x r _ Hr. now rewrite Hbody.
Qed.

Lemma recurse_RegulatoryElement_up_lss regem ll_Map rfs :
  lss (recurse_RegulatoryElement_up regem ll_Map rfs) = lss rfs.
Proof.
  unfold recurse_RegulatoryElement_up.
  match goal with
  | |- lss (if ?b then _ else _) = _ => destruct b
  end; cbn [regems_insert lss];
    rewrite !for_each_lss;
    auto using recurse_Lanelet_up_lss, recurse_Area_up_lss.
Qed.

Lemma recurse_LineString_parent_lss (c : LineString) ll_Map rfs :
  lss (recurse c ll_Map CHECK_PARENT rfs)
  = if no_owner ll_Map c && lineStringLayer_exists ll_Map (ls_id c)
    then insert ls_id c (lss rfs) else lss rfs.
Proof.
  unfold recurse, Recurse_LineString.
  cbn [recurse_LineString]. unfold recurse_LineString_up.
  fold (no_owner ll_Map c).
  destruct (no_owner ll_Map c && lineStringLayer_exists ll_Map (ls_id c));
    cbn [lss_insert lss];
    rewrite !for_each_lss;
    auto using recurse_Lanelet_up_lss, recurse_Area_up_lss,
      recurse_RegulatoryElement_up_lss.
Qed.

Lemma record_own_free_standing ll_Map (c : Call) rfs :
  Forall (fun ls => no_owner ll_Map ls = true) (lss rfs) ->
  Forall (fun ls => no_owner ll_Map ls = true) (lss (record_own ll_Map c rfs)).
Proof.
  intros Hrfs.
  destruct c as [[p|ls|llt|area|regem] [|]];
    try (rewrite record_own_lss; [exact Hrfs | discriminate]);
    cbn [record_own]; [exact Hrfs|].
  destruct (no_owner ll_Map ls) eqn:Hfree; cbn [andb]; [|exact Hrfs].
  destruct (lineStringLayer_exists ll_Map (ls_id ls)); [|exact Hrfs].
  cbn [lss_insert lss]. now apply insert_Forall.
Qed.

(** C2.  Entered upward, a line string is inserted into the set of line
    strings exactly when its three reverse lookups (lanelets, areas,
    regulatory elements) are all empty and its id exists in the line string
    layer; otherwise that set is left as it was.  No other call touches that
    set, so the traversal only ever adds line strings whose three lookups are
    empty, and every line string recorded in a result of [findReferences] has
    three empty reverse lookups. *)
Theorem curve_recorded_iff_free_standing (ll_Map : LaneletMap) :
  (forall (c : LineString) (rfs : References),
      lss (recurse c ll_Map CHECK_PARENT rfs)
      = if no_owner ll_Map c && lineStringLayer_exists ll_Map (ls_id c)
        then insert ls_id c (lss rfs) else lss rfs)
  /\ (forall (prim : Primitive) (check_dir : direction) (rfs : References),
         Forall (fun ls => no_owner ll_Map ls = true) (lss rfs) ->
         Forall (fun ls => no_owner ll_Map ls = true)
           (lss (recurse prim ll_Map check_dir rfs)))
  /\ (forall (prim : Primitive) (c : LineString),
         In c (lss (findReferences prim ll_Map)) ->
         laneletLayer_findUsages_ls ll_Map c = []
         /\ areaLayer_findUsages_ls ll_Map c = []
         /\ regulatoryElementLayer_findUsages ll_Map c = []).
Proof.
  assert (Hkeep : forall (prim : Primitive) check_dir rfs,
             Forall (fun ls => no_owner ll_Map ls = true) (lss rfs) ->
             Forall (fun ls => no_owner ll_Map ls = true)
               (lss (recurse prim ll_Map check_dir rfs))).
  { intros prim check_dir rfs.
    apply (recurse_keeps ll_Map
             (fun r => Forall (fun ls => no_owner ll_Map ls = true) (lss r))).
    intros c0 r. apply record_own_free_standing. }
  split; [|split].
  - intros c rfs. apply recurse_LineString_parent_lss.
  - exact Hkeep.
  - intros prim c Hin.
    assert (Hall : Forall (fun ls => no_owner ll_Map ls = true)
                     (lss (findReferences prim ll_Map)))
      by (apply Hkeep; constructor).
    rewrite Forall_forall in Hall. specialize (Hall c Hin).
    unfold no_owner in Hall.
    destruct (laneletLayer_findUsages_ls ll_Map c),
      (areaLayer_findUsages_ls ll_Map c),
      (regulatoryElementLayer_findUsages ll_Map c);
      cbn in Hall; try discriminate.
    split; [reflexivity | split; reflexivity].
Qed.

Lemma curve_recorded_iff_free_standing_witness :
  In Scenario.c4 (lss (findReferences (PPoint Scenario.p7) Scenario.free_Map))
  /\ laneletLayer_findUsages_ls Scenario.free_Map Scenario.c4 = []
  /\ areaLayer_findUsages_ls Scenario.free_Map Scenario.c4 = []
  /\ regulatoryElementLayer_findUsages Scenario.free_Map Scenario.c4 = [].
Proof.
  assert (Hin : In Scenario.c4
                  (lss (findReferences (PPoint Scenario.p7) Scenario.free_Map)))
    by (left; reflexivity).
  split; [exact Hin|].
  exact (proj2 (proj2 (curve_recorded_iff_free_standing Scenario.free_Map))
           (PPoint Scenario.p7) Scenario.c4 Hin).
Defined.

(** ** Upward completeness *)

Lemma record_own_llts_mono ll_Map (L : Lanelet) (c : Call) rfs :
  contains llt_id L (llts rfs) = true ->
  contains llt_id L (llts (record_own ll_Map c rfs)) = true.
Proof.
  intros HL.
  destruct c as [[p|ls|llt|area|regem] [|]]; cbn [record_own]; try exact HL.
  - destruct (no_owner ll_Map ls && _); exact HL.
  - destruct (laneletLayer_exists ll_Map (llt_id llt)); [|exact HL].
    cbn [llts_insert llts]. now apply contains_insert_mono.
  - destruct (areaLayer_exists ll_Map (area_id area)); exact HL.
  - destruct (is_empty _ && is_empty _ && _); exact HL.
Qed.

Lemma for_each_owner_recorded ll_Map (L : Lanelet) (xs : list Lanelet) rfs :
  In L xs ->
  laneletLayer_exists ll_Map (llt_id L) = true ->
  contains llt_id L
    (llts (for_each xs (fun llt => recurse llt ll_Map CHECK_PARENT) rfs)) = true.
Proof.
  intros Hin Hex. revert rfs.
  induction xs as [|x xs IH]; intros rfs; [contradiction|].
  rewrite for_each_cons. destruct Hin as [->|Hin]; [|now apply IH].
  apply (for_each_keeps Lanelet
           (fun r => contains llt_id L (llts r) = true)).
  - intros y r _ Hr. rewrite recurse_Lanelet_parent.
    now apply record_own_llts_mono.
  - rewrite recurse_Lanelet_parent. cbn [record_own]. rewrite Hex.
    cbn [llts_insert llts]. apply contains_insert.
Qed.

(** C3, as the specification words it, fails on a map whose lanelet layer no
    longer holds a lanelet that the reverse lookup still reports: [L1] is
    reported as an owner of [c1], and the result does not contain it. *)
Lemma stale_owner_not_recorded :
  In Scenario.L1 (laneletLayer_findUsages_ls Scenario.stale_Map Scenario.c1)
  /\ contains llt_id Scenario.L1
       (llts (findReferences Scenario.c1 Scenario.stale_Map)) = false.
Proof. split; [left; reflexivity | reflexivity]. Qed.

(** C3, amended.  If the lanelet-layer reverse lookup of line string [c]
    includes lanelet [L], and the id of [L] exists in the lanelet layer, then
    going up from [c] records [L] whatever the Reference Set it starts from;
    in particular the lanelets of [findReferences(c, map)] contain [L]. *)
Theorem upward_completeness
  (c : LineString) (ll_Map : LaneletMap) (L : Lanelet) :
  In L (laneletLayer_findUsages_ls ll_Map c) ->
  laneletLayer_exists ll_Map (llt_id L) = true ->
  (forall rfs,
      contains llt_id L (llts (recurse c ll_Map CHECK_PARENT rfs)) = true)
  /\ contains llt_id L (llts (findReferences c ll_Map)) = true.
Proof.
  intros Hin Hex.
  assert (Hup : forall rfs,
             contains llt_id L (llts (recurse c ll_Map CHECK_PARENT rfs)) = true).
  { intros rfs. rewrite recurse_LineString_parent.
    apply record_own_llts_mono.
    apply (for_each_keeps RegulatoryElement
             (fun r => contains llt_id L (llts r) = true)).
    { intros regem r _. apply (recurse_keeps ll_Map
        (fun r => contains llt_id L (llts r) = true)
        (record_own_llts_mono ll_Map L) (PRegulatoryElement regem)). }
    apply (for_each_keeps Area (fun r => contains llt_id L (llts r) = true)).
    { intros area r _. apply (recurse_keeps ll_Map
        (fun r => contains llt_id L (llts r) = true)
        (record_own_llts_mono ll_Map L) (PArea area)). }
    now apply for_each_owner_recorded. }
  split; [exact Hup | apply Hup].
Qed.

Lemma upward_completeness_witness :
  (forall rfs,
      contains llt_id Scenario.L1
        (llts (recurse Scenario.c1 Scenario.ll_Map CHECK_PARENT rfs)) = true)
  /\ contains llt_id Scenario.L1
       (llts (findReferences Scenario.c1 Scenario.ll_Map)) = true.
Proof.
  apply (upward_completeness Scenario.c1 Scenario.ll_Map Scenario.L1).
  - left. reflexivity.
  - reflexivity.
Defined.

(** ** No double counting *)

Section HashedSets.
Context {PrimT : Type} (hash_of : PrimT -> Z) (id_of : PrimT -> Id).

Lemma insert_hashed_cases (x : PrimT) s :
  (insert_hashed hash_of id_of x s = s
   /\ exists y, In y s /\ hash_of y = hash_of x /\ id_of y = id_of x)
  \/ (insert_hashed hash_of id_of x s = x :: s
      /\ forall y, In y s -> hash_of y = hash_of x -> id_of y <> id_of x).
Proof.
  unfold insert_hashed, comparator.
  destruct (existsb _ s) eqn:Hex; [left|right]; (split; [reflexivity|]).
  - apply existsb_exists in Hex. destruct Hex as (y & Hy & Hkey).
    apply andb_true_iff in Hkey. destruct Hkey as [Hh Hi].
    apply Z.eqb_eq in Hh. apply Z.eqb_eq in Hi. exists y. now repeat split.
  - intros y Hy Hh Hi.
    assert (Hex' : existsb (fun member =>
                              Z.eqb (hash_of x) (hash_of member)
                              && Z.eqb (id_of x) (id_of member)) s = true).
    { apply existsb_exists. exists y. split; [exact Hy|].
      rewrite Hh, Hi, !Z.eqb_refl. reflexivity. }
    congruence.
Qed.

Lemma insert_hashed_Forall (P : PrimT -> Prop) (x : PrimT) s :
  P x -> Forall P s -> Forall P (insert_hashed hash_of id_of x s).
Proof.
  intros Hx Hs.
  destruct (insert_hashed_cases x s) as [[-> _]|[-> _]];
    [exact Hs | now constructor].
Qed.

Lemma ids_insert_hashed_incl (x : PrimT) s :
  incl (ids id_of s) (ids id_of (insert_hashed hash_of id_of x s)).
Proof.
  destruct (insert_hashed_cases x s) as [[-> _]|[-> _]].
  - apply incl_refl.
  - cbn [ids map]. apply incl_tl, incl_refl.
Qed.

Lemma ids_insert_hashed_own (x : PrimT) s :
  In (id_of x) (ids id_of (insert_hashed hash_of id_of x s)).
Proof.
  destruct (insert_hashed_cases x s) as [[-> (y & Hy & _ & Hi)]|[-> _]].
  - rewrite <- Hi. now apply in_map.
  - now left.
Qed.

Lemma insert_hashed_first (x : PrimT) : insert_hashed hash_of id_of x [] = [x].
Proof. reflexivity. Qed.
End HashedSets.



(** ** Existence checks *)

Lemma record_own_all_exist ll_Map (c : Call) rfs :
  all_exist ll_Map rfs -> all_exist ll_Map (record_own ll_Map c rfs).
Proof.
  intros (Hls & Hllt & Harea & Hregem).
  destruct c as [[p|ls|llt|area|regem] [|]]; cbn [record_own];
    try (repeat split; assumption).
  - destruct (no_owner ll_Map ls); cbn [andb]; [|repeat split; assumption].
    destruct (lineStringLayer_exists ll_Map (ls_id ls)) eqn:Hex;
      [|repeat split; assumption].
    repeat split; cbn [lss llts areas regems lss_insert]; try assumption.
    now apply insert_Forall.
  - destruct (laneletLayer_exists ll_Map (llt_id llt)) eqn:Hex;
      [|repeat split; assumption].
    repeat split; cbn [lss llts areas regems llts_insert]; try assumption.
    now apply insert_Forall.
  - destruct (areaLayer_exists ll_Map (area_id area)) eqn:Hex;
      [|repeat split; assumption].
    repeat split; cbn [lss llts areas regems areas_insert]; try assumption.
    now apply insert_Forall.
  - destruct (is_empty _ && is_empty _); cbn [andb]; [|repeat split; assumption].
    destruct (regulatoryElementLayer_exists ll_Map (regem_id regem)) eqn:Hex;
      [|repeat split; assumption].
    repeat split; cbn [lss llts areas regems regems_insert]; try assumption.
    now apply insert_hashed_Forall.
Qed.

Lemma all_exist_empty ll_Map : all_exist ll_Map empty_References.
Proof. repeat split; constructor. Qed.

Lemma recurse_all_exist (prim : Primitive) ll_Map check_dir rfs :
  all_exist ll_Map rfs -> all_exist ll_Map (recurse prim ll_Map check_dir rfs).
Proof.
  apply (recurse_keeps ll_Map (all_exist ll_Map)).
  intros c r. apply record_own_all_exist.
Qed.

(** A primitive whose id is absent from its layer is not a member of a
    Reference Set whose members all exist. *)
Lemma absent_not_recorded ll_Map rfs (x : Primitive) :
  all_exist ll_Map rfs ->
  exists_in_layer ll_Map x = false ->
  records rfs x = false.
Proof.
  intros (Hls & Hllt & Harea & Hregem) Habsent.
  destruct x as [p|ls|llt|area|regem]; cbn [records exists_in_layer] in *;
    [reflexivity|..];
    match goal with
    | |- ?b = false => destruct b eqn:Hrec; [|reflexivity]
    end; exfalso.
  - apply (contains_Forall ls_id
             (fun i => lineStringLayer_exists ll_Map i = true) ls) in Hrec;
      [congruence | exact Hls].
  - apply (contains_Forall llt_id
             (fun i => laneletLayer_exists ll_Map i = true) llt) in Hrec;
      [congruence | exact Hllt].
  - apply (contains_Forall area_id
             (fun i => areaLayer_exists ll_Map i = true) area) in Hrec;
      [congruence | exact Harea].
  - apply (contains_Forall regem_id
             (fun i => regulatoryElementLayer_exists ll_Map i = true) regem)
      in Hrec; [congruence | exact Hregem].
Qed.

(** C5.  Every insertion is guarded by the existence of the candidate's id in
    its own layer: in either direction the traversal only adds members that
    exist, so every member of a result of [findReferences] exists in its
    layer and a primitive whose id is absent from its layer is recorded in
    none of the four sets, whatever the reverse lookups report.  Leaving it
    out is silent: the call returns its Reference Set. *)
Theorem insertion_guarded_by_existence :
  (forall (prim : Primitive) (ll_Map : LaneletMap) (check_dir : direction)
          (rfs : References),
      all_exist ll_Map rfs ->
      all_exist ll_Map (recurse prim ll_Map check_dir rfs))
  /\ (forall (prim : Primitive) (ll_Map : LaneletMap),
         all_exist ll_Map (findReferences prim ll_Map)
         /\ findReferences_call prim ll_Map
            = Returned (findReferences prim ll_Map))
  /\ (forall (prim x : Primitive) (ll_Map : LaneletMap),
         exists_in_layer ll_Map x = false ->
         records (findReferences prim ll_Map) x = false).
Proof.
  split; [|split].
  - intros prim ll_Map check_dir rfs. apply recurse_all_exist.
  - intros prim ll_Map. split; [|reflexivity].
    apply recurse_all_exist, all_exist_empty.
  - intros prim x ll_Map Habsent.
    apply (absent_not_recorded ll_Map); [|exact Habsent].
    apply recurse_all_exist, all_exist_empty.
Qed.

Lemma insertion_guarded_by_existence_witness :
  all_exist Scenario.stale_Map
    (recurse (PLanelet Scenario.L1) Scenario.stale_Map CHECK_CHILD
       empty_References)
  /\ records (findReferences (PLineString Scenario.c1) Scenario.stale_Map)
       (PLanelet Scenario.L1) = false.
Proof.
  split.
  - apply (proj1 insertion_guarded_by_existence).
    repeat split; constructor.
  - apply (proj2 (proj2 insertion_guarded_by_existence)).
    reflexivity.
Defined.

(** ** Orphan points *)

(** C6.  A point that no line string owns (its reverse lookup in the line
    string layer is empty) is discarded: [recurse] leaves the Reference Set as
    it was, in either direction, and [findReferences] yields the empty
    Reference Set. *)
Theorem orphan_point_empty (p : Point) (ll_Map : LaneletMap) :
  lineStringLayer_findUsages ll_Map p = [] ->
  (forall check_dir rfs, recurse p ll_Map check_dir rfs = rfs)
  /\ findReferences p ll_Map = empty_References.
Proof.
  intros Horphan.
  assert (Hskip : forall check_dir rfs, recurse p ll_Map check_dir rfs = rfs).
  { intros check_dir rfs. unfold recurse, Recurse_Point, recurse_Point.
    now rewrite Horphan. }
  split; [exact Hskip | apply Hskip].
Qed.

Lemma orphan_point_empty_witness :
  (forall check_dir rfs,
      recurse Scenario.p_foreign Scenario.ll_Map check_dir rfs = rfs)
  /\ findReferences Scenario.p_foreign Scenario.ll_Map = empty_References.
Proof.
  apply (orphan_point_empty Scenario.p_foreign Scenario.ll_Map).
  reflexivity.
Defined.

(** ** Termination *)

Lemma callees_layer ll_Map (c c' : Call) :
  In c' (callees ll_Map c) -> layer_of (fst c') <> layer_of (fst c).
Proof.
  destruct c as [[p|ls|llt|area|regem] [|]]; cbn [callees];
    rewrite ?in_app_iff; intros Hin;
    repeat match goal with
      | H : _ \/ _ |- _ => destruct H as [H|H]
      | H : In _ (calls_with _ _ _) |- _ =>
          apply in_calls_with in H; destruct H as [? [? ->]]
      | H : In _ (_ :: _) |- _ => cbn [In] in H
      | H : In _ [] |- _ => contradiction H
      | H : _ = c' |- _ => subst c'
      end;
    cbn [fst layer_of]; try discriminate.
  destruct x; cbn [Primitive_of_RuleParameter layer_of]; discriminate.
Qed.

Lemma callees_up ll_Map (c c' : Call) :
  In c' (callees ll_Map c) -> snd c = CHECK_PARENT ->
  snd c' = CHECK_PARENT /\ up_rank (fst c') < up_rank (fst c).
Proof.
  destruct c as [[p|ls|llt|area|regem] [|]]; cbn [callees snd];
    rewrite ?in_app_iff; intros Hin Hdir; try discriminate;
    repeat match goal with
      | H : _ \/ _ |- _ => destruct H as [H|H]
      | H : In _ (calls_with _ _ _) |- _ =>
          apply in_calls_with in H; destruct H as [? [? ->]]
      | H : In _ [] |- _ => contradiction H
      end;
    cbn [fst snd up_rank]; split; (reflexivity || lia).
Qed.

(** The bound of four is reached: from point [p5] of the scenario the calls
    nest through [c3], [R1] and [L1]. *)
Lemma upward_depth_reached :
  recurse_fuel 3 Scenario.ll_Map (PPoint Scenario.p5, CHECK_PARENT)
    empty_References = None
  /\ recurse_fuel 4 Scenario.ll_Map (PPoint Scenario.p5, CHECK_PARENT)
       empty_References
     = Some {| lss := []; llts := [Scenario.L1]; areas := []; regems := [] |}.
Proof. split; reflexivity. Qed.

(** C8.  Every call of the traversal terminates.  Upward, a bound of four on
    the depth of nested calls (three layer transitions: point, line string,
    regulatory element, lanelet or area) is enough for the bounded traversal
    to come back with the result of [findReferences]; in general a bound above
    the rank of the call is enough.  Every recursive call has a smaller rank
    than its caller and enters another layer than its caller's; a call made by
    an upward call is upward and strictly higher in the ownership order. *)
Theorem recurse_terminates (ll_Map : LaneletMap) :
  (forall (prim : Primitive) (rfs : References),
      recurse_fuel 4 ll_Map (prim, CHECK_PARENT) rfs
      = Some (recurse prim ll_Map CHECK_PARENT rfs))
  /\ (forall (prim : Primitive),
         recurse_fuel 4 ll_Map (prim, CHECK_PARENT) empty_References
         = Some (findReferences prim ll_Map))
  /\ (forall (prim : Primitive) (check_dir : direction) (rfs : References),
         recurse_fuel (S (rank (prim, check_dir))) ll_Map (prim, check_dir) rfs
         = Some (recurse prim ll_Map check_dir rfs))
  /\ (forall (c c' : Call),
         In c' (callees ll_Map c) ->
         rank c' < rank c
         /\ layer_of (fst c') <> layer_of (fst c)
         /\ (snd c = CHECK_PARENT ->
             snd c' = CHECK_PARENT /\ up_rank (fst c') < up_rank (fst c))).
Proof.
  assert (Hup : forall (prim : Primitive) rfs,
             recurse_fuel 4 ll_Map (prim, CHECK_PARENT) rfs
             = Some (recurse prim ll_Map CHECK_PARENT rfs)).
  { intros prim rfs.
    apply (recurse_fuel_enough ll_Map 4 (prim, CHECK_PARENT)).
    pose proof (rank_up prim). lia. }
  split; [exact Hup | split; [|split]].
  - intros prim. apply Hup.
  - intros prim check_dir rfs.
    apply (recurse_fuel_enough ll_Map _ (prim, check_dir)). lia.
  - intros c c' Hin. split; [|split].
    + now apply (callees_rank ll_Map).
    + now apply (callees_layer ll_Map).
    + now apply (callees_up ll_Map).
Qed.

Lemma recurse_terminates_witness :
  rank (PLanelet Scenario.L1, CHECK_PARENT)
  < rank (PRegulatoryElement Scenario.R1, CHECK_PARENT)
  /\ layer_of (PLanelet Scenario.L1) <> layer_of (PRegulatoryElement Scenario.R1)
  /\ (CHECK_PARENT = CHECK_PARENT ->
      CHECK_PARENT = CHECK_PARENT
      /\ up_rank (PLanelet Scenario.L1)
         < up_rank (PRegulatoryElement Scenario.R1)).
Proof.
  apply (proj2 (proj2 (proj2 (recurse_terminates Scenario.ll_Map)))
           (PRegulatoryElement Scenario.R1, CHECK_PARENT)
           (PLanelet Scenario.L1, CHECK_PARENT)).
  left. reflexivity.
Defined.

(** ** Points and the direction *)

(** C10.  On a point the direction plays no part: entered with [CHECK_CHILD]
    or with [CHECK_PARENT], [recurse] gives the same Reference Set.  Going
    down from a line string is therefore going up from each of its points,
    and it can record their owners: in the scenario, going down from [c1]
    records the lanelet [L1]. *)
Theorem recurse_Point_ignores_direction :
  (forall (p : Point) (ll_Map : LaneletMap) (rfs : References),
      recurse p ll_Map CHECK_CHILD rfs = recurse p ll_Map CHECK_PARENT rfs)
  /\ (forall (ls : LineString) (ll_Map : LaneletMap) (rfs : References),
         recurse ls ll_Map CHECK_CHILD rfs
         = for_each (ls_points ls)
             (fun p => recurse p ll_Map CHECK_PARENT) rfs)
  /\ recurse Scenario.c1 Scenario.ll_Map CHECK_CHILD empty_References
     = {| lss := []; llts := [Scenario.L1]; areas := []; regems := [] |}.
Proof.
  split; [|split].
  - intros p ll_Map rfs. reflexivity.
  - intros ls ll_Map rfs. reflexivity.
  - reflexivity.
Qed.

(** * Further properties of the traversal *)

(** ** The traversal only adds *)

Lemma ids_insert_incl (PrimT : Type) (id_of : PrimT -> Id) (x : PrimT) s :
  incl (ids id_of s) (ids id_of (insert id_of x s)).
Proof.
  unfold insert. destruct (existsb (comparator id_of x) s).
  - apply incl_refl.
  - cbn [ids map]. apply incl_tl, incl_refl.
Qed.

Lemma included_refl r : included r r.
Proof. repeat split; apply incl_refl. Qed.

Lemma included_trans r1 r2 r3 :
  included r1 r2 -> included r2 r3 -> included r1 r3.
Proof.
  intros (H1 & H2 & H3 & H4) (K1 & K2 & K3 & K4).
  repeat split; eapply incl_tran; eassumption.
Qed.

Lemma record_own_included ll_Map (c : Call) r :
  included r (record_own ll_Map c r).
Proof.
  destruct c as [[p|ls|llt|area|regem] [|]]; cbn [record_own];
    try apply included_refl;
    match goal with
    | |- included _ (if ?b then _ else _) => destruct b
    end; try apply included_refl;
    repeat split; cbn [lss llts areas regems lss_insert llts_insert
                         areas_insert regems_insert];
    try apply incl_refl;
    first [apply ids_insert_incl | apply ids_insert_hashed_incl].
Qed.

Lemma recurse_call_included ll_Map (c : Call) r :
  included r (recurse_call ll_Map c r).
Proof.
  apply (recurse_call_keeps ll_Map (included r)); [|apply included_refl].
  intros c0 r0 H0. eapply included_trans; [exact H0|].
  apply record_own_included.
Qed.

Lemma fold_recurse_call_keeps ll_Map (P : References -> Prop) (cs : list Call) :
  (forall c r, P r -> P (record_own ll_Map c r)) ->
  forall r, P r ->
    P (fold_left (fun r c' => recurse_call ll_Map c' r) cs r).
Proof.
  intros Hown. induction cs as [|c cs IH]; intros r Hr; [exact Hr|].
  cbn [fold_left]. apply IH. now apply recurse_call_keeps.
Qed.

Lemma fold_recurse_call_included ll_Map (cs : list Call) r :
  included r (fold_left (fun r c' => recurse_call ll_Map c' r) cs r).
Proof.
  apply (fold_recurse_call_keeps ll_Map (included r)); [|apply included_refl].
  intros c0 r0 H0. eapply included_trans; [exact H0|].
  apply record_own_included.
Qed.

(** X1.  Whatever the primitive and the direction, [recurse] never takes a
    member out: every id recorded in the Reference Set it is given is still
    recorded, in the same set, in the one it leaves. *)
Theorem recurse_never_removes
  (prim : Primitive) (ll_Map : LaneletMap) (check_dir : direction)
  (rfs : References) :
  included rfs (recurse prim ll_Map check_dir rfs).
Proof. exact (recurse_call_included ll_Map (prim, check_dir) rfs). Qed.

Lemma recurse_never_removes_witness :
  In (llt_id Scenario.L1)
    (ids llt_id
       (llts (recurse (PPoint Scenario.p7) Scenario.free_Map CHECK_PARENT
                (recurse (PPoint Scenario.p5) Scenario.free_Map CHECK_PARENT
                   empty_References)))).
Proof.
  apply (proj1 (proj2 (recurse_never_removes (PPoint Scenario.p7)
                         Scenario.free_Map CHECK_PARENT
                         (recurse (PPoint Scenario.p5) Scenario.free_Map
                            CHECK_PARENT empty_References)))).
  left. reflexivity.
Defined.

(** ** Traversing again *)














(** ** Free-standing regulatory elements *)







(** ** What is reached is recorded *)

Lemma reaches_recorded ll_Map (Q : References -> Prop) (c t : Call) :
  reaches ll_Map c t ->
  (forall c0 r, Q r -> Q (record_own ll_Map c0 r)) ->
  (forall r, Q (record_own ll_Map t r)) ->
  forall r, Q (recurse_call ll_Map c r).
Proof.
  intros Hreach Hkeep Ht.
  induction Hreach as [c|c c' t Hin Hreach IH]; intros r;
    rewrite recurse_call_unfold.
  - apply Ht.
  - apply Hkeep. apply in_split in Hin. destruct Hin as (l1 & l2 & ->).
    rewrite fold_left_app. cbn [fold_left].
    apply fold_recurse_call_keeps; [exact Hkeep|]. apply IH, Ht.
Qed.

Lemma included_own_keeps ll_Map (t c0 : Call) r :
  included (record_own ll_Map t empty_References) r ->
  included (record_own ll_Map t empty_References) (record_own ll_Map c0 r).
Proof.
  intros H. eapply included_trans; [exact H|]. apply record_own_included.
Qed.

Lemma ids_insert_first (PrimT : Type) (id_of : PrimT -> Id) (x : PrimT) s :
  incl (ids id_of (insert id_of x [])) (ids id_of (insert id_of x s)).
Proof.
  intros i Hi. cbn in Hi. destruct Hi as [<-|[]].
  apply contains_In, contains_insert.
Qed.

Lemma ids_insert_hashed_first (PrimT : Type) (hash_of : PrimT -> Z)
  (id_of : PrimT -> Id) (x : PrimT) s :
  incl (ids id_of (insert_hashed hash_of id_of x []))
       (ids id_of (insert_hashed hash_of id_of x s)).
Proof.
  intros i Hi. cbn in Hi. destruct Hi as [<-|[]].
  apply ids_insert_hashed_own.
Qed.

Lemma included_empty r : included empty_References r.
Proof. repeat apply conj; apply incl_nil_l. Qed.

Lemma included_own_here ll_Map (t : Call) r :
  included (record_own ll_Map t empty_References) (record_own ll_Map t r).
Proof.
  destruct t as [[p|ls|llt|area|regem] [|]]; cbn [record_own];
    try apply included_empty;
    match goal with
    | |- included (if ?b then _ else _) _ => destruct b
    end; try apply included_empty;
    unfold included, lss_insert, llts_insert, areas_insert, regems_insert;
    cbn [lss llts areas regems empty_References];
    repeat apply conj; try apply incl_nil_l;
    first [apply ids_insert_first | apply ids_insert_hashed_first].
Qed.

(** X4.  Whatever a call reached in the course of the traversal records on
    its own is in the result: if the call for [prim] reaches the call [t],
    directly or through other calls, then the ids [t] records for its own
    primitive are recorded in the Reference Set [recurse] leaves for [prim],
    whatever Reference Set it starts from. *)
Theorem reached_call_recorded
  (ll_Map : LaneletMap) (prim : Primitive) (check_dir : direction) (t : Call) :
  reaches ll_Map (prim, check_dir) t ->
  forall rfs,
    included (record_own ll_Map t empty_References)
      (recurse prim ll_Map check_dir rfs).
Proof.
  intros Hreach rfs.
  apply (reaches_recorded ll_Map
           (included (record_own ll_Map t empty_References))
           (prim, check_dir) t Hreach).
  - intros c0 r. apply included_own_keeps.
  - intros r. apply included_own_here.
Qed.

Lemma reached_call_recorded_witness :
  included
    (record_own Scenario.ll_Map (PLanelet Scenario.L1, CHECK_PARENT)
       empty_References)
    (recurse (PLineString Scenario.c3) Scenario.ll_Map CHECK_PARENT
       empty_References).
Proof.
  apply (reached_call_recorded Scenario.ll_Map (PLineString Scenario.c3)
           CHECK_PARENT (PLanelet Scenario.L1, CHECK_PARENT)).
  apply (reaches_callee Scenario.ll_Map _
           (PRegulatoryElement Scenario.R1, CHECK_PARENT)).
  - left. reflexivity.
  - apply (reaches_callee Scenario.ll_Map _
             (PLanelet Scenario.L1, CHECK_PARENT)).
    + left. reflexivity.
    + apply reaches_here.
Defined.

Lemma reached_lanelet_recorded ll_Map (c : Call) (L : Lanelet) :
  reaches ll_Map c (PLanelet L, CHECK_PARENT) ->
  laneletLayer_exists ll_Map (llt_id L) = true ->
  forall r, contains llt_id L (llts (recurse_call ll_Map c r)) = true.
Proof.
  intros Hreach Hex r.
  pose proof (reaches_recorded ll_Map
                (included (record_own ll_Map (PLanelet L, CHECK_PARENT)
                             empty_References))
                c _ Hreach
                (fun c0 r0 => included_own_keeps ll_Map _ c0 r0)
                (fun r0 => included_own_here ll_Map _ r0) r) as (_ & H & _).
  cbn [record_own] in H. rewrite Hex in H.
  apply contains_In, H. left. reflexivity.
Qed.

Lemma reached_area_recorded ll_Map (c : Call) (A : Area) :
  reaches ll_Map c (PArea A, CHECK_PARENT) ->
  areaLayer_exists ll_Map (area_id A) = true ->
  forall r, contains area_id A (areas (recurse_call ll_Map c r)) = true.
Proof.
  intros Hreach Hex r.
  pose proof (reaches_recorded ll_Map
                (included (record_own ll_Map (PArea A, CHECK_PARENT)
                             empty_References))
                c _ Hreach
                (fun c0 r0 => included_own_keeps ll_Map _ c0 r0)
                (fun r0 => included_own_here ll_Map _ r0) r) as (_ & _ & H & _).
  cbn [record_own] in H. rewrite Hex in H.
  apply contains_In, H. left. reflexivity.
Qed.

Lemma reached_line_string_recorded ll_Map (c : Call) (ls : LineString) :
  reaches ll_Map c (PLineString ls, CHECK_PARENT) ->
  no_owner ll_Map ls = true ->
  lineStringLayer_exists ll_Map (ls_id ls) = true ->
  forall r, contains ls_id ls (lss (recurse_call ll_Map c r)) = true.
Proof.
  intros Hreach Hfree Hex r.
  pose proof (reaches_recorded ll_Map
                (included (record_own ll_Map (PLineString ls, CHECK_PARENT)
                             empty_References))
                c _ Hreach
                (fun c0 r0 => included_own_keeps ll_Map _ c0 r0)
                (fun r0 => included_own_here ll_Map _ r0) r) as (H & _).
  cbn [record_own] in H. rewrite Hfree, Hex in H.
  apply contains_In, H. left. reflexivity.
Qed.

Lemma in_calls_with_intro (A : Type) (inj : A -> Primitive) check_dir xs x :
  In x xs -> In (inj x, check_dir) (calls_with inj check_dir xs).
Proof.
  intros Hin. unfold calls_with.
  apply (in_map (fun x => (inj x, check_dir))). exact Hin.
Qed.

Lemma reaches_one ll_Map (c c' : Call) :
  In c' (callees ll_Map c) -> reaches ll_Map c c'.
Proof.
  intros Hin. apply (reaches_callee ll_Map c c' c' Hin), reaches_here.
Qed.

(** X5.  Going up from a line string records the owners of its owners.  An
    area that the area layer reports for the line string and that exists is
    recorded; so is a lanelet, or an area, that carries a regulatory element
    referring to the line string.  This holds whatever Reference Set the
    traversal starts from. *)
Theorem owners_of_line_string_recorded
  (c : LineString) (ll_Map : LaneletMap) (rfs : References) :
  (forall A, In A (areaLayer_findUsages_ls ll_Map c) ->
             areaLayer_exists ll_Map (area_id A) = true ->
             contains area_id A (areas (recurse c ll_Map CHECK_PARENT rfs)) = true)
  /\ (forall R L, In R (regulatoryElementLayer_findUsages ll_Map c) ->
                  In L (laneletLayer_findUsages_regem ll_Map R) ->
                  laneletLayer_exists ll_Map (llt_id L) = true ->
                  contains llt_id L
                    (llts (recurse c ll_Map CHECK_PARENT rfs)) = true)
  /\ (forall R A, In R (regulatoryElementLayer_findUsages ll_Map c) ->
                  In A (areaLayer_findUsages_regem ll_Map R) ->
                  areaLayer_exists ll_Map (area_id A) = true ->
                  contains area_id A
                    (areas (recurse c ll_Map CHECK_PARENT rfs)) = true).
Proof.
  split; [|split].
  - intros A HA Hex.
    apply (reached_area_recorded ll_Map (PLineString c, CHECK_PARENT) A);
      [|exact Hex].
    apply reaches_one. cbn [callees]. rewrite !in_app_iff. right. left.
    now apply in_calls_with_intro.
  - intros R L HR HL Hex.
    apply (reached_lanelet_recorded ll_Map (PLineString c, CHECK_PARENT) L);
      [|exact Hex].
    apply (reaches_callee ll_Map _ (PRegulatoryElement R, CHECK_PARENT)).
    + cbn [callees]. rewrite !in_app_iff. right. right.
      now apply in_calls_with_intro.
    + apply reaches_one. cbn [callees]. rewrite in_app_iff. left.
      now apply in_calls_with_intro.
  - intros R A HR HA Hex.
    apply (reached_area_recorded ll_Map (PLineString c, CHECK_PARENT) A);
      [|exact Hex].
    apply (reaches_callee ll_Map _ (PRegulatoryElement R, CHECK_PARENT)).
    + cbn [callees]. rewrite !in_app_iff. right. right.
      now apply in_calls_with_intro.
    + apply reaches_one. cbn [callees]. rewrite in_app_iff. right.
      now apply in_calls_with_intro.
Qed.

Lemma owners_of_line_string_recorded_witness :
  contains llt_id Scenario.L1
    (llts (recurse Scenario.c3 Scenario.ll_Map CHECK_PARENT empty_References))
  = true.
Proof.
  apply (proj1 (proj2 (owners_of_line_string_recorded
                         Scenario.c3 Scenario.ll_Map empty_References))
           Scenario.R1 Scenario.L1).
  - left. reflexivity.
  - left. reflexivity.
  - reflexivity.
Defined.

(** X6.  From a point the traversal reports what owns the line strings that
    contain it, in either direction: a line string that contains the point,
    has no owner and exists is recorded itself, and a lanelet that the
    lanelet layer reports for such a line string and that exists is
    recorded. *)
Theorem owners_of_point_recorded
  (p : Point) (ll_Map : LaneletMap) (check_dir : direction) (rfs : References) :
  (forall ls, In ls (lineStringLayer_findUsages ll_Map p) ->
              no_owner ll_Map ls = true ->
              lineStringLayer_exists ll_Map (ls_id ls) = true ->
              contains ls_id ls (lss (recurse p ll_Map check_dir rfs)) = true)
  /\ (forall ls L, In ls (lineStringLayer_findUsages ll_Map p) ->
                   In L (laneletLayer_findUsages_ls ll_Map ls) ->
                   laneletLayer_exists ll_Map (llt_id L) = true ->
                   contains llt_id L
                     (llts (recurse p ll_Map check_dir rfs)) = true).
Proof.
  split.
  - intros ls Hls Hfree Hex.
    apply (reached_line_string_recorded ll_Map (PPoint p, check_dir) ls);
      [|exact Hfree|exact Hex].
    apply reaches_one. cbn [callees]. now apply in_calls_with_intro.
  - intros ls L Hls HL Hex.
    apply (reached_lanelet_recorded ll_Map (PPoint p, check_dir) L);
      [|exact Hex].
    apply (reaches_callee ll_Map _ (PLineString ls, CHECK_PARENT)).
    + cbn [callees]. now apply in_calls_with_intro.
    + apply reaches_one. cbn [callees]. rewrite !in_app_iff. left.
      now apply in_calls_with_intro.
Qed.

Lemma owners_of_point_recorded_witness :
  contains ls_id Scenario.c4
    (lss (recurse Scenario.p7 Scenario.free_Map CHECK_CHILD empty_References))
  = true
  /\ contains llt_id Scenario.L1
       (llts (recurse Scenario.p1 Scenario.ll_Map CHECK_CHILD empty_References))
     = true.
Proof.
  split.
  - apply (proj1 (owners_of_point_recorded Scenario.p7 Scenario.free_Map
                    CHECK_CHILD empty_References) Scenario.c4).
    + left. reflexivity.
    + reflexivity.
    + reflexivity.
  - apply (proj2 (owners_of_point_recorded Scenario.p1 Scenario.ll_Map
                    CHECK_CHILD empty_References) Scenario.c1 Scenario.L1).
    + left. reflexivity.
    + left. reflexivity.
    + reflexivity.
Defined.

(** ** What is recorded was reached *)

Lemma reaches_snoc ll_Map (c0 c c' : Call) :
  reaches ll_Map c0 c -> In c' (callees ll_Map c) -> reaches ll_Map c0 c'.
Proof.
  intros Hreach Hin. induction Hreach as [c|c c1 t Hin1 Hreach IH].
  - now apply reaches_one.
  - apply (reaches_callee ll_Map c c1 c' Hin1). now apply IH.
Qed.

Lemma recurse_call_keeps_reached ll_Map (c0 : Call) (P : References -> Prop) :
  (forall t r, reaches ll_Map c0 t -> P r -> P (record_own ll_Map t r)) ->
  forall c, reaches ll_Map c0 c ->
  forall rfs, P rfs -> P (recurse_call ll_Map c rfs).
Proof.
  intros Hown c.
  remember (rank c) as n eqn:Hn. revert c Hn.
  induction n as [n IH] using lt_wf_ind. intros c -> Hreach rfs Hrfs.
  rewrite recurse_call_unfold. apply Hown; [exact Hreach|].
  assert (Hcs : forall c', In c' (callees ll_Map c) ->
                           rank c' < rank c /\ reaches ll_Map c0 c').
  { intros c' Hin. split; [now apply (callees_rank ll_Map)|].
    now apply (reaches_snoc ll_Map c0 c). }
  revert rfs Hrfs. induction (callees ll_Map c) as [|c' cs IHcs]; intros rfs Hrfs.
  - exact Hrfs.
  - cbn [fold_left]. apply IHcs.
    + intros c'' Hin. apply Hcs. now right.
    + destruct (Hcs c' (or_introl eq_refl)) as [Hlt Hr'].
      apply (IH (rank c') Hlt c' eq_refl Hr' rfs Hrfs).
Qed.

Lemma Forall_insert_own (PrimT : Type) (id_of : PrimT -> Id)
  (P : PrimT -> Prop) (x : PrimT) s :
  (In x (insert id_of x []) -> P x) -> Forall P s -> Forall P (insert id_of x s).
Proof.
  intros Hx Hs. apply insert_Forall; [|exact Hs].
  apply Hx. left. reflexivity.
Qed.

Lemma Forall_insert_hashed_own (PrimT : Type) (hash_of : PrimT -> Z)
  (id_of : PrimT -> Id) (P : PrimT -> Prop) (x : PrimT) s :
  (In x (insert_hashed hash_of id_of x []) -> P x) ->
  Forall P s -> Forall P (insert_hashed hash_of id_of x s).
Proof.
  intros Hx Hs. apply insert_hashed_Forall; [|exact Hs].
  apply Hx. left. reflexivity.
Qed.

Lemma record_own_recorded_by_reached ll_Map (c0 t : Call) r :
  reaches ll_Map c0 t ->
  recorded_by_reached ll_Map c0 r ->
  recorded_by_reached ll_Map c0 (record_own ll_Map t r).
Proof.
  intros Hreach (H1 & H2 & H3 & H4).
  assert (Hsame : recorded_by_reached ll_Map c0 r) by (repeat apply conj; assumption).
  destruct t as [[p|ls|llt|area|regem] [|]]; cbn [record_own]; try exact Hsame.
  - destruct (no_owner ll_Map ls && lineStringLayer_exists ll_Map (ls_id ls))
      eqn:Hcond; [|exact Hsame].
    repeat apply conj; cbn [lss llts areas regems lss_insert]; try assumption.
    apply Forall_insert_own; [|exact H1]. intros Hin.
    exists (PLineString ls, CHECK_PARENT). split; [exact Hreach|].
    cbn [record_own]. rewrite Hcond. exact Hin.
  - destruct (laneletLayer_exists ll_Map (llt_id llt)) eqn:Hcond; [|exact Hsame].
    repeat apply conj; cbn [lss llts areas regems llts_insert]; try assumption.
    apply Forall_insert_own; [|exact H2]. intros Hin.
    exists (PLanelet llt, CHECK_PARENT). split; [exact Hreach|].
    cbn [record_own]. rewrite Hcond. exact Hin.
  - destruct (areaLayer_exists ll_Map (area_id area)) eqn:Hcond; [|exact Hsame].
    repeat apply conj; cbn [lss llts areas regems areas_insert]; try assumption.
    apply Forall_insert_own; [|exact H3]. intros Hin.
    exists (PArea area, CHECK_PARENT). split; [exact Hreach|].
    cbn [record_own]. rewrite Hcond. exact Hin.
  - destruct (is_empty (areaLayer_findUsages_regem ll_Map regem)
              && is_empty (laneletLayer_findUsages_regem ll_Map regem)
              && regulatoryElementLayer_exists ll_Map (regem_id regem))
      eqn:Hcond; [|exact Hsame].
    repeat apply conj; cbn [lss llts areas regems regems_insert]; try assumption.
    apply Forall_insert_hashed_own; [|exact H4]. intros Hin.
    exists (PRegulatoryElement regem, CHECK_PARENT). split; [exact Hreach|].
    cbn [record_own]. rewrite Hcond. exact Hin.
Qed.

Lemma recorded_by_reached_from_empty ll_Map (c : Call) :
  recorded_by_reached ll_Map c (recurse_call ll_Map c empty_References).
Proof.
  apply (recurse_call_keeps_reached ll_Map c (recorded_by_reached ll_Map c)
           (fun t r => record_own_recorded_by_reached ll_Map _ t r)
           c (reaches_here ll_Map _) empty_References).
  repeat apply conj; constructor.
Qed.

(** X7.  Nothing is recorded that was not reached: starting from the empty
    Reference Set, every member of the result of [recurse], in each of the
    four sets, is the primitive of some call made in the course of the
    traversal and was recorded by that call as its own. *)
Theorem recorded_only_if_reached
  (prim : Primitive) (ll_Map : LaneletMap) (check_dir : direction) :
  recorded_by_reached ll_Map (prim, check_dir)
    (recurse prim ll_Map check_dir empty_References).
Proof. exact (recorded_by_reached_from_empty ll_Map (prim, check_dir)). Qed.

(** ** What a line string query can report *)

(** Closes a goal whose premise is membership in a set that computes to the
    empty one. *)
Ltac no_member :=
  let Hin := fresh "Hin" in intros Hin; exact (False_ind _ Hin).

Lemma own_lss_inv ll_Map (t : Call) x :
  In x (lss (record_own ll_Map t empty_References)) ->
  t = (PLineString x, CHECK_PARENT)
  /\ no_owner ll_Map x = true
  /\ lineStringLayer_exists ll_Map (ls_id x) = true.
Proof.
  destruct t as [[p|ls|llt|area|regem] [|]]; cbn [record_own];
    try no_member; try (destruct (_ : bool); no_member).
  destruct (no_owner ll_Map ls) eqn:Hfree; cbn [andb]; [|no_member].
  destruct (lineStringLayer_exists ll_Map (ls_id ls)) eqn:Hex; [|no_member].
  intros [<-|[]]. now repeat split.
Qed.

Lemma own_llts_inv ll_Map (t : Call) x :
  In x (llts (record_own ll_Map t empty_References)) ->
  t = (PLanelet x, CHECK_PARENT)
  /\ laneletLayer_exists ll_Map (llt_id x) = true.
Proof.
  destruct t as [[p|ls|llt|area|regem] [|]]; cbn [record_own];
    try no_member; try (destruct (_ : bool); no_member).
  destruct (laneletLayer_exists ll_Map (llt_id llt)) eqn:Hex; [|no_member].
  intros [<-|[]]. now split.
Qed.

Lemma own_areas_inv ll_Map (t : Call) x :
  In x (areas (record_own ll_Map t empty_References)) ->
  t = (PArea x, CHECK_PARENT)
  /\ areaLayer_exists ll_Map (area_id x) = true.
Proof.
  destruct t as [[p|ls|llt|area|regem] [|]]; cbn [record_own];
    try no_member; try (destruct (_ : bool); no_member).
  destruct (areaLayer_exists ll_Map (area_id area)) eqn:Hex; [|no_member].
  intros [<-|[]]. now split.
Qed.

Lemma own_regems_inv ll_Map (t : Call) x :
  In x (regems (record_own ll_Map t empty_References)) ->
  t = (PRegulatoryElement x, CHECK_PARENT)
  /\ no_carrier ll_Map x = true
  /\ regulatoryElementLayer_exists ll_Map (regem_id x) = true.
Proof.
  destruct t as [[p|ls|llt|area|regem] [|]]; cbn [record_own];
    try no_member; try (destruct (_ : bool); no_member).
  fold (no_carrier ll_Map regem).
  destruct (no_carrier ll_Map regem) eqn:Hfree; cbn [andb]; [|no_member].
  destruct (regulatoryElementLayer_exists ll_Map (regem_id regem)) eqn:Hex;
    [|no_member].
  intros [<-|[]]. now repeat split.
Qed.

Lemma reaches_inv ll_Map (c t : Call) :
  reaches ll_Map c t ->
  t = c \/ exists c', In c' (callees ll_Map c) /\ reaches ll_Map c' t.
Proof.
  intros [c0|c0 c' t0 Hin Hreach]; [now left | right; now exists c'].
Qed.

Lemma reaches_Lanelet_up ll_Map (L : Lanelet) (t : Call) :
  reaches ll_Map (PLanelet L, CHECK_PARENT) t -> t = (PLanelet L, CHECK_PARENT).
Proof.
  intros H. apply reaches_inv in H. destruct H as [H|(c' & [] & _)]. exact H.
Qed.

Lemma reaches_Area_up ll_Map (A : Area) (t : Call) :
  reaches ll_Map (PArea A, CHECK_PARENT) t -> t = (PArea A, CHECK_PARENT).
Proof.
  intros H. apply reaches_inv in H. destruct H as [H|(c' & [] & _)]. exact H.
Qed.

Lemma reaches_RegulatoryElement_up ll_Map (R : RegulatoryElement) (t : Call) :
  reaches ll_Map (PRegulatoryElement R, CHECK_PARENT) t ->
  t = (PRegulatoryElement R, CHECK_PARENT)
  \/ (exists L, In L (laneletLayer_findUsages_regem ll_Map R)
                /\ t = (PLanelet L, CHECK_PARENT))
  \/ (exists A, In A (areaLayer_findUsages_regem ll_Map R)
                /\ t = (PArea A, CHECK_PARENT)).
Proof.
  intros H. apply reaches_inv in H. destruct H as [H|(c' & Hin & Hreach)].
  - now left.
  - right. cbn [callees] in Hin. rewrite in_app_iff in Hin.
    destruct Hin as [Hin|Hin]; apply in_calls_with in Hin;
      destruct Hin as (x & Hx & ->).
    + left. exists x. split; [exact Hx|]. now apply (reaches_Lanelet_up ll_Map).
    + right. exists x. split; [exact Hx|]. now apply (reaches_Area_up ll_Map).
Qed.

Lemma reaches_LineString_up ll_Map (c : LineString) (t : Call) :
  reaches ll_Map (PLineString c, CHECK_PARENT) t ->
  t = (PLineString c, CHECK_PARENT)
  \/ (exists L, In L (laneletLayer_findUsages_ls ll_Map c)
                /\ t = (PLanelet L, CHECK_PARENT))
  \/ (exists A, In A (areaLayer_findUsages_ls ll_Map c)
                /\ t = (PArea A, CHECK_PARENT))
  \/ (exists R, In R (regulatoryElementLayer_findUsages ll_Map c)
                /\ reaches ll_Map (PRegulatoryElement R, CHECK_PARENT) t).
Proof.
  intros H. apply reaches_inv in H. destruct H as [H|(c' & Hin & Hreach)].
  - now left.
  - right. cbn [callees] in Hin. rewrite !in_app_iff in Hin.
    destruct Hin as [Hin|[Hin|Hin]]; apply in_calls_with in Hin;
      destruct Hin as (x & Hx & ->).
    + left. exists x. split; [exact Hx|]. now apply (reaches_Lanelet_up ll_Map).
    + right. left. exists x. split; [exact Hx|]. now apply (reaches_Area_up ll_Map).
    + right. right. exists x. now split.
Qed.

(** X8.  Going up from a line string [c] with an empty Reference Set reports
    nothing but [c] and its owners.  A line string in the result is [c]
    itself, with no owner; a lanelet is one the lanelet layer reports for
    [c] or for a regulatory element that refers to [c]; an area likewise; a
    regulatory element is one that refers to [c] and that nothing carries.
    Each of them exists in its layer. *)
Theorem line_string_result_sound (c : LineString) (ll_Map : LaneletMap) :
  (forall x, In x (lss (recurse c ll_Map CHECK_PARENT empty_References)) ->
             x = c /\ no_owner ll_Map c = true
             /\ lineStringLayer_exists ll_Map (ls_id c) = true)
  /\ (forall L, In L (llts (recurse c ll_Map CHECK_PARENT empty_References)) ->
                laneletLayer_exists ll_Map (llt_id L) = true
                /\ (In L (laneletLayer_findUsages_ls ll_Map c)
                    \/ exists R,
                         In R (regulatoryElementLayer_findUsages ll_Map c)
                         /\ In L (laneletLayer_findUsages_regem ll_Map R)))
  /\ (forall A, In A (areas (recurse c ll_Map CHECK_PARENT empty_References)) ->
                areaLayer_exists ll_Map (area_id A) = true
                /\ (In A (areaLayer_findUsages_ls ll_Map c)
                    \/ exists R,
                         In R (regulatoryElementLayer_findUsages ll_Map c)
                         /\ In A (areaLayer_findUsages_regem ll_Map R)))
  /\ (forall g, In g (regems (recurse c ll_Map CHECK_PARENT empty_References)) ->
                In g (regulatoryElementLayer_findUsages ll_Map c)
                /\ no_carrier ll_Map g = true
                /\ regulatoryElementLayer_exists ll_Map (regem_id g) = true).
Proof.
  destruct (recorded_by_reached_from_empty ll_Map (PLineString c, CHECK_PARENT))
    as (H1 & H2 & H3 & H4).
  rewrite Forall_forall in H1, H2, H3, H4.
  split; [|split; [|split]].
  - intros x Hx. destruct (H1 x Hx) as (t & Hreach & Hown).
    apply own_lss_inv in Hown. destruct Hown as (-> & Hfree & Hex).
    apply reaches_LineString_up in Hreach.
    destruct Hreach as [Heq|[(L & _ & Heq)|[(A & _ & Heq)|(R & _ & Hreach)]]];
      try discriminate.
    + injection Heq as ->. now repeat split.
    + apply reaches_RegulatoryElement_up in Hreach.
      destruct Hreach as [Heq|[(L & _ & Heq)|(A & _ & Heq)]]; discriminate.
  - intros L HL. destruct (H2 L HL) as (t & Hreach & Hown).
    apply own_llts_inv in Hown. destruct Hown as (-> & Hex).
    split; [exact Hex|].
    apply reaches_LineString_up in Hreach.
    destruct Hreach as [Heq|[(L' & HL' & Heq)|[(A & _ & Heq)|(R & HR & Hreach)]]];
      try discriminate.
    + injection Heq as ->. now left.
    + apply reaches_RegulatoryElement_up in Hreach.
      destruct Hreach as [Heq|[(L' & HL' & Heq)|(A & _ & Heq)]];
        try discriminate.
      injection Heq as ->. right. now exists R.
  - intros A HA. destruct (H3 A HA) as (t & Hreach & Hown).
    apply own_areas_inv in Hown. destruct Hown as (-> & Hex).
    split; [exact Hex|].
    apply reaches_LineString_up in Hreach.
    destruct Hreach as [Heq|[(L & _ & Heq)|[(A' & HA' & Heq)|(R & HR & Hreach)]]];
      try discriminate.
    + injection Heq as ->. now left.
    + apply reaches_RegulatoryElement_up in Hreach.
      destruct Hreach as [Heq|[(L & _ & Heq)|(A' & HA' & Heq)]];
        try discriminate.
      injection Heq as ->. right. now exists R.
  - intros g Hg. destruct (H4 g Hg) as (t & Hreach & Hown).
    apply own_regems_inv in Hown. destruct Hown as (-> & Hfree & Hex).
    apply reaches_LineString_up in Hreach.
    destruct Hreach as [Heq|[(L & _ & Heq)|[(A & _ & Heq)|(R & HR & Hreach)]]];
      try discriminate.
    apply reaches_RegulatoryElement_up in Hreach.
    destruct Hreach as [Heq|[(L & _ & Heq)|(A & _ & Heq)]]; try discriminate.
    injection Heq as ->. now repeat split.
Qed.

Lemma line_string_result_sound_witness :
  laneletLayer_exists Scenario.ll_Map (llt_id Scenario.L1) = true
  /\ (In Scenario.L1 (laneletLayer_findUsages_ls Scenario.ll_Map Scenario.c3)
      \/ exists R,
           In R (regulatoryElementLayer_findUsages Scenario.ll_Map Scenario.c3)
           /\ In Scenario.L1 (laneletLayer_findUsages_regem Scenario.ll_Map R)).
Proof.
  apply (proj1 (proj2 (line_string_result_sound Scenario.c3 Scenario.ll_Map))
           Scenario.L1).
  left. reflexivity.
Defined.

(** * Properties of the filters and extractors *)

(** ** Arrays filled by [push_back] *)

Lemma fold_push_back_filter (A : Type) (keep : A -> bool) (xs acc : list A) :
  fold_left (fun v x => if keep x then push_back v x else v) xs acc
  = acc ++ filter keep xs.
Proof.
  revert acc. induction xs as [|x xs IH]; intros acc; cbn [fold_left filter].
  - now rewrite app_nil_r.
  - rewrite IH. destruct (keep x); [|reflexivity].
    unfold push_back. now rewrite <- app_assoc.
Qed.

Lemma fold_append_flat_map (A B : Type) (g : A -> list B) (xs : list A)
  (acc : list B) :
  fold_left (fun v x => v ++ g x) xs acc = acc ++ flat_map g xs.
Proof.
  revert acc. induction xs as [|x xs IH]; intros acc; cbn [fold_left flat_map].
  - now rewrite app_nil_r.
  - rewrite IH. now rewrite <- app_assoc.
Qed.

Lemma fold_left_ext (A B : Type) (f g : B -> A -> B) (xs : list A) (acc : B) :
  (forall v x, f v x = g v x) -> fold_left f xs acc = fold_left g xs acc.
Proof.
  intros Hfg. revert acc. induction xs as [|x xs IH]; intros acc.
  - reflexivity.
  - cbn [fold_left]. now rewrite Hfg, IH.
Qed.

Lemma fold_left_flat_map (A B C : Type) (f : C -> B -> C) (g : A -> list B)
  (xs : list A) (acc : C) :
  fold_left (fun v x => fold_left f (g x) v) xs acc
  = fold_left f (flat_map g xs) acc.
Proof.
  revert acc. induction xs as [|x xs IH]; intros acc.
  - reflexivity.
  - cbn [fold_left flat_map]. now rewrite fold_left_app, IH.
Qed.

(** ** Lanelets of a subtype *)

Lemma subtypeLanelets_filter (api : Lanelet2) lls subtype :
  subtypeLanelets api lls subtype = filter (has_subtype api subtype) lls.
Proof.
  unfold subtypeLanelets.
  rewrite (fold_left_ext _ _ _
             (fun v ll => if has_subtype api subtype ll
                          then push_back v ll else v)).
  - apply fold_push_back_filter.
  - intros v ll. unfold has_subtype.
    destruct (attribute_Subtype api ll); reflexivity.
Qed.

Lemma has_subtype_true (api : Lanelet2) subtype ll :
  has_subtype api subtype ll = true <-> attribute_Subtype api ll = Some subtype.
Proof.
  unfold has_subtype. destruct (attribute_Subtype api ll) as [value|].
  - rewrite String.eqb_eq. split; [now intros -> | now intros [= ->]].
  - split; discriminate.
Qed.

(** X9.  [subtypeLanelets] returns, in the order of its input, exactly the
    lanelets that have a subtype attribute whose value equals the requested
    one: a lanelet without the attribute, or with another value, is never
    returned.  Filtering a concatenation is concatenating the filtered parts,
    and filtering twice with the same subtype is filtering once. *)
Theorem subtypeLanelets_exactly (api : Lanelet2) (subtype : String.string) :
  (forall lls ll,
      In ll (subtypeLanelets api lls subtype)
      <-> In ll lls /\ attribute_Subtype api ll = Some subtype)
  /\ (forall lls,
         subtypeLanelets api lls subtype
         = filter (fun ll => match attribute_Subtype api ll with
                             | Some value => String.eqb value subtype
                             | None => false
                             end) lls)
  /\ (forall lls1 lls2,
         subtypeLanelets api (lls1 ++ lls2) subtype
         = subtypeLanelets api lls1 subtype ++ subtypeLanelets api lls2 subtype)
  /\ (forall lls,
         subtypeLanelets api (subtypeLanelets api lls subtype) subtype
         = subtypeLanelets api lls subtype).
Proof.
  split; [|split; [|split]].
  - intros lls ll. rewrite subtypeLanelets_filter, filter_In.
    now rewrite has_subtype_true.
  - intros lls. apply subtypeLanelets_filter.
  - intros lls1 lls2. rewrite !subtypeLanelets_filter. apply filter_app.
  - intros lls. rewrite !subtypeLanelets_filter.
    induction lls as [|ll lls IH]; [reflexivity|].
    cbn [filter]. destruct (has_subtype api subtype ll) eqn:Hll.
    + cbn [filter]. now rewrite Hll, IH.
    + exact IH.
Qed.

(** X10.  No lanelet is both a crosswalk and a road: a lanelet returned by
    [crosswalkLanelets] is returned by [roadLanelets] for no input, and
    either filter applied to the output of the other returns nothing. *)
Theorem crosswalk_road_disjoint (api : Lanelet2) :
  (forall lls lls' ll,
      In ll (crosswalkLanelets api lls) -> ~ In ll (roadLanelets api lls'))
  /\ (forall lls, roadLanelets api (crosswalkLanelets api lls) = [])
  /\ (forall lls, crosswalkLanelets api (roadLanelets api lls) = []).
Proof.
  assert (Hne : forall ll,
             has_subtype api AttributeValueString_Crosswalk ll = true ->
             has_subtype api AttributeValueString_Road ll = true -> False).
  { intros ll H1 H2. apply has_subtype_true in H1. apply has_subtype_true in H2.
    rewrite H1 in H2. discriminate. }
  unfold crosswalkLanelets, roadLanelets.
  split; [|split].
  - intros lls lls' ll. rewrite !subtypeLanelets_filter, !filter_In.
    intros [_ H1] [_ H2]. exact (Hne ll H1 H2).
  - intros lls. rewrite !subtypeLanelets_filter.
    induction lls as [|ll lls IH]; [reflexivity|].
    cbn [filter].
    destruct (has_subtype api AttributeValueString_Crosswalk ll) eqn:H1;
      [|exact IH].
    cbn [filter].
    destruct (has_subtype api AttributeValueString_Road ll) eqn:H2;
      [destruct (Hne ll H1 H2) | exact IH].
  - intros lls. rewrite !subtypeLanelets_filter.
    induction lls as [|ll lls IH]; [reflexivity|].
    cbn [filter].
    destruct (has_subtype api AttributeValueString_Road ll) eqn:H2;
      [|exact IH].
    cbn [filter].
    destruct (has_subtype api AttributeValueString_Crosswalk ll) eqn:H1;
      [destruct (Hne ll H1 H2) | exact IH].
Qed.

Lemma crosswalk_road_disjoint_witness :
  ~ In Junction.Lb
      (roadLanelets Junction.api [Junction.La; Junction.Lb; Junction.Lc]).
Proof.
  apply (proj1 (crosswalk_road_disjoint Junction.api)
           [Junction.La; Junction.Lb; Junction.Lc]).
  left. reflexivity.
Defined.

Lemma subtypeLanelets_exactly_witness :
  In Junction.La
    (subtypeLanelets Junction.api [Junction.La; Junction.Lb; Junction.Lc]
       AttributeValueString_Road).
Proof.
  apply (proj1 (subtypeLanelets_exactly Junction.api AttributeValueString_Road)
           [Junction.La; Junction.Lb; Junction.Lc] Junction.La).
  split; [left; reflexivity | reflexivity].
Defined.

(** ** Regulatory elements collected once per id *)

Section PushBackUnique.

Lemma push_back_unique_cases tl_reg_elems tl_ptr :
  (In (regem_id tl_ptr) (ids regem_id tl_reg_elems)
   /\ push_back_unique tl_reg_elems tl_ptr = tl_reg_elems)
  \/ (~ In (regem_id tl_ptr) (ids regem_id tl_reg_elems)
      /\ push_back_unique tl_reg_elems tl_ptr = tl_reg_elems ++ [tl_ptr]).
Proof.
  unfold push_back_unique, push_back.
  destruct (existsb (fun ii => Z.eqb (regem_id tl_ptr) (regem_id ii))
              tl_reg_elems) eqn:Hex; cbn [negb]; [left|right];
    (split; [|reflexivity]).
  - apply existsb_exists in Hex. destruct Hex as (ii & Hin & Heq).
    apply Z.eqb_eq in Heq. rewrite Heq. now apply in_map.
  - intros Hin. apply in_map_iff in Hin. destruct Hin as (ii & Heq & Hin).
    assert (Hex' : existsb (fun ii => Z.eqb (regem_id tl_ptr) (regem_id ii))
                     tl_reg_elems = true).
    { apply existsb_exists. exists ii. split; [exact Hin|].
      now apply Z.eqb_eq. }
    congruence.
Qed.

Lemma ids_app (PrimT : Type) (id_of : PrimT -> Id) (s1 s2 : list PrimT) :
  ids id_of (s1 ++ s2) = ids id_of s1 ++ ids id_of s2.
Proof. apply map_app. Qed.

Lemma NoDup_snoc (i : Id) (l : list Id) :
  NoDup l -> ~ In i l -> NoDup (l ++ [i]).
Proof.
  intros Hl Hi. apply NoDup_app; [exact Hl | repeat constructor; intros [] |].
  intros a Ha [<-|[]]. contradiction.
Qed.

Lemma fold_push_back_unique_NoDup xs : forall acc,
  NoDup (ids regem_id acc) ->
  NoDup (ids regem_id (fold_left push_back_unique xs acc)).
Proof.
  induction xs as [|x xs IH]; intros acc Hacc; [exact Hacc|].
  cbn [fold_left]. apply IH.
  destruct (push_back_unique_cases acc x) as [[_ ->]|[Hnew ->]]; [exact Hacc|].
  rewrite ids_app. now apply NoDup_snoc.
Qed.

Lemma fold_push_back_unique_In xs : forall acc x,
  In x (fold_left push_back_unique xs acc) -> In x acc \/ In x xs.
Proof.
  induction xs as [|y xs IH]; intros acc x Hx; [now left|].
  cbn [fold_left] in Hx. apply IH in Hx. destruct Hx as [Hx|Hx].
  - destruct (push_back_unique_cases acc y) as [[_ Heq]|[_ Heq]];
      rewrite Heq in Hx; [now left|].
    apply in_app_iff in Hx. destruct Hx as [Hx|[<-|[]]]; [now left|].
    right. now left.
  - right. now right.
Qed.

Lemma fold_push_back_unique_prefix xs : forall acc,
  exists added, fold_left push_back_unique xs acc = acc ++ added.
Proof.
  induction xs as [|y xs IH]; intros acc.
  - exists []. now rewrite app_nil_r.
  - cbn [fold_left].
    destruct (push_back_unique_cases acc y) as [[_ ->]|[_ ->]].
    + apply IH.
    + destruct (IH (acc ++ [y])) as (added & ->).
      exists (y :: added). now rewrite <- app_assoc.
Qed.

Lemma fold_push_back_unique_ids xs : forall acc x,
  In x xs ->
  In (regem_id x) (ids regem_id (fold_left push_back_unique xs acc)).
Proof.
  induction xs as [|y xs IH]; intros acc x Hx; [contradiction|].
  cbn [fold_left]. destruct Hx as [->|Hx]; [|now apply IH].
  destruct (fold_push_back_unique_prefix xs (push_back_unique acc x))
    as (added & ->).
  rewrite ids_app. apply in_or_app. left.
  destruct (push_back_unique_cases acc x) as [[Hold ->]|[_ ->]]; [exact Hold|].
  rewrite ids_app. apply in_or_app. right. now left.
Qed.

Lemma fold_push_back_unique_absorbed xs : forall acc,
  (forall x, In x xs -> In (regem_id x) (ids regem_id acc)) ->
  fold_left push_back_unique xs acc = acc.
Proof.
  induction xs as [|y xs IH]; intros acc Hxs; [reflexivity|].
  cbn [fold_left].
  destruct (push_back_unique_cases acc y) as [[_ ->]|[Hnew _]].
  - apply IH. intros x Hx. apply Hxs. now right.
  - destruct Hnew. apply Hxs. now left.
Qed.

End PushBackUnique.

(** X11.  [trafficLights] returns every traffic light once: no id occurs
    twice in its result, however many of the lanelets carry the same traffic
    light. *)
Theorem trafficLights_unique_ids (api : Lanelet2) (lanelets : list Lanelet) :
  NoDup (ids regem_id (trafficLights api lanelets)).
Proof.
  unfold trafficLights.
  rewrite (fold_left_flat_map _ _ _ push_back_unique
             (regulatoryElementsAs (is_TrafficLight api))).
  apply fold_push_back_unique_NoDup. constructor.
Qed.

(** X12.  [trafficLights] returns traffic lights of the given lanelets and
    misses none: every element of the result is a regulatory element of
    class traffic light carried by one of the lanelets, and the id of every
    such element is in the result. *)
Theorem trafficLights_sound_complete (api : Lanelet2) (lanelets : list Lanelet) :
  (forall tl, In tl (trafficLights api lanelets) ->
              is_TrafficLight api tl = true
              /\ exists ll, In ll lanelets
                            /\ In tl (llt_regulatoryElements ll))
  /\ (forall ll tl, In ll lanelets ->
                    In tl (llt_regulatoryElements ll) ->
                    is_TrafficLight api tl = true ->
                    In (regem_id tl)
                      (ids regem_id (trafficLights api lanelets))).
Proof.
  unfold trafficLights.
  rewrite (fold_left_flat_map _ _ _ push_back_unique
             (regulatoryElementsAs (is_TrafficLight api))).
  split.
  - intros tl Htl. apply fold_push_back_unique_In in Htl.
    destruct Htl as [[]|Htl]. apply in_flat_map in Htl.
    destruct Htl as (ll & Hll & Htl). unfold regulatoryElementsAs in Htl.
    apply filter_In in Htl. destruct Htl as [Htl Hclass].
    split; [exact Hclass|]. now exists ll.
  - intros ll tl Hll Htl Hclass. apply fold_push_back_unique_ids.
    apply in_flat_map. exists ll. split; [exact Hll|].
    unfold regulatoryElementsAs. apply filter_In. now split.
Qed.

Lemma trafficLights_sound_complete_witness :
  In (regem_id Junction.ATL)
    (ids regem_id
       (trafficLights Junction.api [Junction.La; Junction.Lb; Junction.Lc])).
Proof.
  apply (proj2 (trafficLights_sound_complete Junction.api
                  [Junction.La; Junction.Lb; Junction.Lc])
           Junction.Lb Junction.ATL).
  - right. left. reflexivity.
  - right. left. reflexivity.
  - reflexivity.
Defined.

(** X13.  Lanelets that were already given add nothing: when every lanelet
    of [more] is among [lanelets], [trafficLights] of [lanelets] followed by
    [more] is [trafficLights] of [lanelets]; in particular giving the same
    lanelets twice changes nothing. *)
Theorem trafficLights_repeated_lanelets
  (api : Lanelet2) (lanelets more : list Lanelet) :
  incl more lanelets ->
  trafficLights api (lanelets ++ more) = trafficLights api lanelets.
Proof.
  intros Hincl. unfold trafficLights.
  rewrite !(fold_left_flat_map _ _ _ push_back_unique
              (regulatoryElementsAs (is_TrafficLight api))).
  rewrite flat_map_app, fold_left_app.
  apply fold_push_back_unique_absorbed.
  intros x Hx. apply fold_push_back_unique_ids.
  apply in_flat_map in Hx. destruct Hx as (ll & Hll & Hx).
  apply in_flat_map. exists ll. split; [now apply Hincl | exact Hx].
Qed.

Lemma trafficLights_repeated_lanelets_witness :
  trafficLights Junction.api
    ([Junction.La; Junction.Lb; Junction.Lc] ++ [Junction.Lb; Junction.La])
  = trafficLights Junction.api [Junction.La; Junction.Lb; Junction.Lc].
Proof.
  apply (trafficLights_repeated_lanelets Junction.api).
  intros ll [<-|[<-|[]]]; [right; left | left]; reflexivity.
Defined.

(** X14.  [autowareTrafficLights] returns every autoware traffic light of
    the given lanelets once: no id occurs twice in its result, every element
    is of that class and is carried by one of the lanelets, and the id of
    every such element is in the result. *)
Theorem autowareTrafficLights_unique_sound_complete
  (api : Lanelet2) (lanelets : list Lanelet) :
  NoDup (ids regem_id (autowareTrafficLights api lanelets))
  /\ (forall tl, In tl (autowareTrafficLights api lanelets) ->
                 is_AutowareTrafficLight api tl = true
                 /\ exists ll, In ll lanelets
                               /\ In tl (llt_regulatoryElements ll))
  /\ (forall ll tl, In ll lanelets ->
                    In tl (llt_regulatoryElements ll) ->
                    is_AutowareTrafficLight api tl = true ->
                    In (regem_id tl)
                      (ids regem_id (autowareTrafficLights api lanelets))).
Proof.
  unfold autowareTrafficLights.
  rewrite (fold_left_flat_map _ _ _ push_back_unique
             (regulatoryElementsAs (is_AutowareTrafficLight api))).
  split; [|split].
  - apply fold_push_back_unique_NoDup. constructor.
  - intros tl Htl. apply fold_push_back_unique_In in Htl.
    destruct Htl as [[]|Htl]. apply in_flat_map in Htl.
    destruct Htl as (ll & Hll & Htl). unfold regulatoryElementsAs in Htl.
    apply filter_In in Htl. destruct Htl as [Htl Hclass].
    split; [exact Hclass|]. now exists ll.
  - intros ll tl Hll Htl Hclass. apply fold_push_back_unique_ids.
    apply in_flat_map. exists ll. split; [exact Hll|].
    unfold regulatoryElementsAs. apply filter_In. now split.
Qed.

Lemma autowareTrafficLights_unique_sound_complete_witness :
  In (regem_id Junction.ATL)
    (ids regem_id
       (autowareTrafficLights Junction.api
          [Junction.La; Junction.Lb; Junction.Lc])).
Proof.
  apply (proj2 (proj2 (autowareTrafficLights_unique_sound_complete Junction.api
                         [Junction.La; Junction.Lb; Junction.Lc]))
           Junction.Lb Junction.ATL).
  - right. left. reflexivity.
  - right. left. reflexivity.
  - reflexivity.
Defined.

(** X15.  Provided every autoware traffic light is a traffic light (the first
    class derives from the second), whatever [autowareTrafficLights] returns
    for some lanelets has its id in what [trafficLights] returns for them. *)
Theorem autowareTrafficLights_among_trafficLights
  (api : Lanelet2) (lanelets : list Lanelet) :
  (forall r, is_AutowareTrafficLight api r = true -> is_TrafficLight api r = true) ->
  incl (ids regem_id (autowareTrafficLights api lanelets))
       (ids regem_id (trafficLights api lanelets)).
Proof.
  intros Hclass i Hi. apply in_map_iff in Hi. destruct Hi as (tl & <- & Htl).
  unfold autowareTrafficLights in Htl.
  rewrite (fold_left_flat_map _ _ _ push_back_unique
             (regulatoryElementsAs (is_AutowareTrafficLight api))) in Htl.
  apply fold_push_back_unique_In in Htl. destruct Htl as [[]|Htl].
  apply in_flat_map in Htl. destruct Htl as (ll & Hll & Htl).
  unfold regulatoryElementsAs in Htl. apply filter_In in Htl.
  destruct Htl as [Htl Hauto].
  unfold trafficLights.
  rewrite (fold_left_flat_map _ _ _ push_back_unique
             (regulatoryElementsAs (is_TrafficLight api))).
  apply fold_push_back_unique_ids. apply in_flat_map. exists ll.
  split; [exact Hll|]. unfold regulatoryElementsAs. apply filter_In.
  split; [exact Htl | now apply Hclass].
Qed.

Lemma autowareTrafficLights_among_trafficLights_witness :
  incl (ids regem_id
          (autowareTrafficLights Junction.api
             [Junction.La; Junction.Lb; Junction.Lc]))
       (ids regem_id
          (trafficLights Junction.api [Junction.La; Junction.Lb; Junction.Lc])).
Proof.
  apply (autowareTrafficLights_among_trafficLights Junction.api).
  intros r Hr. cbn [Junction.api is_AutowareTrafficLight is_TrafficLight] in *.
  rewrite Hr. apply orb_true_r.
Defined.

(** ** Stop lines *)

Lemma stopLinesLanelet_flat_map (api : Lanelet2) (ll : Lanelet) :
  stopLinesLanelet api ll
  = flat_map (yield_stopLine api ll) (regulatoryElementsAs (is_RightOfWay api) ll)
    ++ flat_map (light_stopLine api)
         (regulatoryElementsAs (is_TrafficLight api) ll)
    ++ flat_map (sign_stopLine api)
         (regulatoryElementsAs (is_TrafficSign api) ll).
Proof.
  unfold stopLinesLanelet.
  rewrite (fold_left_ext _ _ _ (fun v j => v ++ yield_stopLine api ll j)
             (regulatoryElementsAs (is_RightOfWay api) ll)).
  2: { intros v j. unfold yield_stopLine, push_back.
       destruct (getManeuver api j ll); try (now rewrite app_nil_r).
       destruct (RightOfWay_stopLine api j); [reflexivity | now rewrite app_nil_r]. }
  rewrite (fold_left_ext _ _ _ (fun v j => v ++ light_stopLine api j)
             (regulatoryElementsAs (is_TrafficLight api) ll)).
  2: { intros v j. unfold light_stopLine, push_back.
       destruct (TrafficLight_stopLine api j);
         [reflexivity | now rewrite app_nil_r]. }
  rewrite (fold_left_ext _ _ _ (fun v j => v ++ sign_stopLine api j)
             (regulatoryElementsAs (is_TrafficSign api) ll)).
  2: { intros v j. unfold sign_stopLine, push_back.
       destruct (refLines api j); [now rewrite app_nil_r | reflexivity]. }
  rewrite !fold_append_flat_map. cbn [app]. now rewrite app_assoc.
Qed.

Lemma stopLinesLanelets_flat_map (api : Lanelet2) (lanelets : list Lanelet) :
  stopLinesLanelets api lanelets = flat_map (stopLinesLanelet api) lanelets.
Proof. unfold stopLinesLanelets. apply fold_append_flat_map. Qed.

Lemma in_regulatoryElementsAs is_T ll j :
  In j (regulatoryElementsAs is_T ll)
  <-> In j (llt_regulatoryElements ll) /\ is_T j = true.
Proof. unfold regulatoryElementsAs. apply filter_In. Qed.

(** X16.  The stop lines of a lanelet are, in this order, the stop lines of
    its right-of-way elements at which the lanelet yields, the stop lines of
    its traffic lights, and the first reference line of each of its traffic
    signs; a line string is returned exactly when one of its regulatory
    elements contributes it in one of these three ways.  A right of way at
    which the lanelet does not yield, an element without stop line and any
    further reference line of a sign contribute nothing. *)
Theorem stopLinesLanelet_exactly (api : Lanelet2) (ll : Lanelet) :
  stopLinesLanelet api ll
  = flat_map (yield_stopLine api ll) (regulatoryElementsAs (is_RightOfWay api) ll)
    ++ flat_map (light_stopLine api)
         (regulatoryElementsAs (is_TrafficLight api) ll)
    ++ flat_map (sign_stopLine api)
         (regulatoryElementsAs (is_TrafficSign api) ll)
  /\ (forall s,
         In s (stopLinesLanelet api ll)
         <-> (exists j, In j (llt_regulatoryElements ll)
                        /\ is_RightOfWay api j = true
                        /\ getManeuver api j ll = Maneuver_Yield
                        /\ RightOfWay_stopLine api j = Some s)
             \/ (exists j, In j (llt_regulatoryElements ll)
                           /\ is_TrafficLight api j = true
                           /\ TrafficLight_stopLine api j = Some s)
             \/ (exists j, In j (llt_regulatoryElements ll)
                           /\ is_TrafficSign api j = true
                           /\ exists others, refLines api j = s :: others)).
Proof.
  split; [apply stopLinesLanelet_flat_map|]. intros s.
  rewrite stopLinesLanelet_flat_map, !in_app_iff, !in_flat_map.
  split.
  - intros [(j & Hj & Hs)|[(j & Hj & Hs)|(j & Hj & Hs)]];
      apply in_regulatoryElementsAs in Hj; destruct Hj as [Hj Hclass].
    + left. exists j. unfold yield_stopLine in Hs.
      destruct (getManeuver api j ll); try contradiction.
      destruct (RightOfWay_stopLine api j) as [s'|]; [|contradiction].
      destruct Hs as [->|[]]. now repeat split.
    + right. left. exists j. unfold light_stopLine in Hs.
      destruct (TrafficLight_stopLine api j) as [s'|]; [|contradiction].
      destruct Hs as [->|[]]. now repeat split.
    + right. right. exists j. unfold sign_stopLine in Hs.
      destruct (refLines api j) as [|front others]; [contradiction|].
      destruct Hs as [->|[]]. repeat split; try assumption. now exists others.
  - intros [(j & Hj & Hclass & Hyield & Hs)|[(j & Hj & Hclass & Hs)
                                            |(j & Hj & Hclass & others & Hs)]].
    + left. exists j. split; [now apply in_regulatoryElementsAs|].
      unfold yield_stopLine. rewrite Hyield, Hs. now left.
    + right. left. exists j. split; [now apply in_regulatoryElementsAs|].
      unfold light_stopLine. rewrite Hs. now left.
    + right. right. exists j. split; [now apply in_regulatoryElementsAs|].
      unfold sign_stopLine. rewrite Hs. now left.
Qed.

Lemma stopLinesLanelet_exactly_witness :
  In Junction.s2 (stopLinesLanelet Junction.api Junction.La).
Proof.
  apply (proj2 (proj2 (stopLinesLanelet_exactly Junction.api Junction.La)
                  Junction.s2)).
  left. exists Junction.ROW.
  split; [right; left; reflexivity|].
  split; [reflexivity|]. split; reflexivity.
Defined.

(** X17.  [stopLinesLanelets] is the concatenation, lanelet after lanelet, of
    the stop lines of each lanelet, with nothing removed: a line string is
    returned exactly when it is a stop line of one of the lanelets, the stop
    lines of a concatenation are the concatenated stop lines, and a line
    shared by several lanelets is returned once for each of them. *)
Theorem stopLinesLanelets_concatenates (api : Lanelet2) :
  (forall lanelets,
      stopLinesLanelets api lanelets
      = concat (map (stopLinesLanelet api) lanelets))
  /\ (forall lanelets s,
         In s (stopLinesLanelets api lanelets)
         <-> exists ll, In ll lanelets /\ In s (stopLinesLanelet api ll))
  /\ (forall lanelets1 lanelets2,
         stopLinesLanelets api (lanelets1 ++ lanelets2)
         = stopLinesLanelets api lanelets1 ++ stopLinesLanelets api lanelets2)
  /\ (forall lanelets,
         List.length (stopLinesLanelets api lanelets)
         = list_sum (map (fun ll => List.length (stopLinesLanelet api ll))
                       lanelets)).
Proof.
  split; [|split; [|split]].
  - intros lanelets. rewrite stopLinesLanelets_flat_map. apply flat_map_concat_map.
  - intros lanelets s. rewrite stopLinesLanelets_flat_map. apply in_flat_map.
  - intros lanelets1 lanelets2. rewrite !stopLinesLanelets_flat_map.
    apply flat_map_app.
  - intros lanelets. rewrite stopLinesLanelets_flat_map.
    induction lanelets as [|ll lanelets IH]; [reflexivity|].
    cbn [flat_map map]. rewrite length_app, IH. reflexivity.
Qed.

Lemma stopLinesLanelets_concatenates_witness :
  In Junction.s1
    (stopLinesLanelets Junction.api [Junction.La; Junction.Lb; Junction.Lc]).
Proof.
  apply (proj2 (proj1 (proj2 (stopLinesLanelets_concatenates Junction.api))
                  [Junction.La; Junction.Lb; Junction.Lc] Junction.s1)).
  exists Junction.Lb. split; [right; left; reflexivity|].
  left. reflexivity.
Defined.

(** ** Stop lines of stop signs *)

Lemma stopSignStopLines_step_cases (api : Lanelet2) stop_sign_id st ts :
  stopSignStopLines_step api stop_sign_id st ts = st
  \/ exists front others,
       TrafficSign_type api ts = stop_sign_id
       /\ refLines api ts = front :: others
       /\ ~ In (ls_id front) (snd st)
       /\ stopSignStopLines_step api stop_sign_id st ts
          = (fst st ++ [front], ls_id front :: snd st).
Proof.
  destruct st as [stoplines checklist]. unfold stopSignStopLines_step.
  destruct (String.eqb (TrafficSign_type api ts) stop_sign_id) eqn:Htype;
    cbn [negb]; [|now left].
  destruct (refLines api ts) as [|front others]; [now left|].
  destruct (existsb (Z.eqb (ls_id front)) checklist) eqn:Hseen;
    cbn [negb]; [now left|].
  right. exists front, others. apply String.eqb_eq in Htype.
  repeat split; try assumption.
  cbn [snd]. intros Hin.
  assert (Hex : existsb (Z.eqb (ls_id front)) checklist = true).
  { apply existsb_exists. exists (ls_id front). split; [exact Hin|].
    apply Z.eqb_refl. }
  congruence.
Qed.

Lemma stopSignStopLines_step_seen (api : Lanelet2) stop_sign_id st ts front others :
  TrafficSign_type api ts = stop_sign_id ->
  refLines api ts = front :: others ->
  In (ls_id front) (snd (stopSignStopLines_step api stop_sign_id st ts)).
Proof.
  intros Htype Hlines. destruct st as [stoplines checklist].
  unfold stopSignStopLines_step. rewrite Htype, String.eqb_refl, Hlines.
  cbn [negb].
  destruct (existsb (Z.eqb (ls_id front)) checklist) eqn:Hseen; cbn [negb snd].
  - apply existsb_exists in Hseen. destruct Hseen as (i & Hi & Heq).
    apply Z.eqb_eq in Heq. now rewrite Heq.
  - now left.
Qed.

Lemma stopSignStopLines_step_agrees (api : Lanelet2) stop_sign_id st ts :
  checklist_agrees st ->
  checklist_agrees (stopSignStopLines_step api stop_sign_id st ts).
Proof.
  intros [Hids Hnodup].
  destruct (stopSignStopLines_step_cases api stop_sign_id st ts)
    as [->|(front & others & _ & _ & Hnew & ->)]; [now split|].
  split; cbn [fst snd].
  - intros i. rewrite ids_app, in_app_iff. cbn [In ids map].
    rewrite Hids. tauto.
  - rewrite ids_app. apply NoDup_snoc; [exact Hnodup|].
    intros Hin. apply Hnew. now apply Hids.
Qed.

Lemma fold_stopSignStopLines_agrees (api : Lanelet2) stop_sign_id xs :
  forall st, checklist_agrees st ->
    checklist_agrees (fold_left (stopSignStopLines_step api stop_sign_id) xs st).
Proof.
  induction xs as [|ts xs IH]; intros st Hst; [exact Hst|].
  cbn [fold_left]. now apply IH, stopSignStopLines_step_agrees.
Qed.

Lemma fold_stopSignStopLines_In (api : Lanelet2) stop_sign_id xs :
  forall st s,
    In s (fst (fold_left (stopSignStopLines_step api stop_sign_id) xs st)) ->
    In s (fst st)
    \/ exists ts others, In ts xs
                         /\ TrafficSign_type api ts = stop_sign_id
                         /\ refLines api ts = s :: others.
Proof.
  induction xs as [|ts xs IH]; intros st s Hs; [now left|].
  cbn [fold_left] in Hs. apply IH in Hs.
  destruct Hs as [Hs|(ts' & others & Hin & Htype & Hlines)].
  - destruct (stopSignStopLines_step_cases api stop_sign_id st ts)
      as [Heq|(front & others & Htype & Hlines & _ & Heq)];
      rewrite Heq in Hs; [now left|].
    cbn [fst] in Hs. apply in_app_iff in Hs.
    destruct Hs as [Hs|[<-|[]]]; [now left|].
    right. exists ts, others. repeat split; try assumption. now left.
  - right. exists ts', others. repeat split; try assumption. now right.
Qed.

Lemma fold_stopSignStopLines_seen (api : Lanelet2) stop_sign_id xs :
  forall st i,
    In i (snd st) ->
    In i (snd (fold_left (stopSignStopLines_step api stop_sign_id) xs st)).
Proof.
  induction xs as [|ts xs IH]; intros st i Hi; [exact Hi|].
  cbn [fold_left]. apply IH.
  destruct (stopSignStopLines_step_cases api stop_sign_id st ts)
    as [->|(front & others & _ & _ & _ & ->)]; [exact Hi|].
  cbn [snd]. now right.
Qed.

Lemma fold_stopSignStopLines_complete (api : Lanelet2) stop_sign_id xs :
  forall st ts front others,
    In ts xs ->
    TrafficSign_type api ts = stop_sign_id ->
    refLines api ts = front :: others ->
    In (ls_id front)
      (snd (fold_left (stopSignStopLines_step api stop_sign_id) xs st)).
Proof.
  induction xs as [|y xs IH]; intros st ts front others Hin Htype Hlines;
    [contradiction|].
  cbn [fold_left]. destruct Hin as [->|Hin].
  - apply fold_stopSignStopLines_seen.
    now apply (stopSignStopLines_step_seen api stop_sign_id st ts front others).
  - now apply (IH _ ts front others).
Qed.

Lemma stopSignStopLines_flat (api : Lanelet2) lanelets stop_sign_id :
  stopSignStopLines api lanelets stop_sign_id
  = fst (fold_left (stopSignStopLines_step api stop_sign_id)
           (flat_map (regulatoryElementsAs (is_TrafficSign api)) lanelets)
           ([], [])).
Proof.
  unfold stopSignStopLines.
  now rewrite (fold_left_flat_map _ _ _
                 (stopSignStopLines_step api stop_sign_id)
                 (regulatoryElementsAs (is_TrafficSign api))).
Qed.

Lemma checklist_agrees_empty : checklist_agrees ([], []).
Proof. split; [intros i; reflexivity | constructor]. Qed.

(** X18.  [stopSignStopLines] returns every stop line once: no id occurs
    twice in its result, however many lanelets or signs share a reference
    line. *)
Theorem stopSignStopLines_unique_ids
  (api : Lanelet2) (lanelets : list Lanelet) (stop_sign_id : String.string) :
  NoDup (ids ls_id (stopSignStopLines api lanelets stop_sign_id)).
Proof.
  rewrite stopSignStopLines_flat.
  apply (fold_stopSignStopLines_agrees api stop_sign_id _ ([], [])
           checklist_agrees_empty).
Qed.

(** X19.  [stopSignStopLines] returns the first reference line of the traffic
    signs of the requested type and misses none: every line returned is the
    first reference line of a traffic sign of that type carried by one of
    the lanelets, and the id of the first reference line of every such sign
    is in the result.  Signs of another type and signs without reference
    line contribute nothing. *)
Theorem stopSignStopLines_sound_complete
  (api : Lanelet2) (lanelets : list Lanelet) (stop_sign_id : String.string) :
  (forall s, In s (stopSignStopLines api lanelets stop_sign_id) ->
             exists ll ts others,
               In ll lanelets
               /\ In ts (llt_regulatoryElements ll)
               /\ is_TrafficSign api ts = true
               /\ TrafficSign_type api ts = stop_sign_id
               /\ refLines api ts = s :: others)
  /\ (forall ll ts front others,
         In ll lanelets ->
         In ts (llt_regulatoryElements ll) ->
         is_TrafficSign api ts = true ->
         TrafficSign_type api ts = stop_sign_id ->
         refLines api ts = front :: others ->
         In (ls_id front)
           (ids ls_id (stopSignStopLines api lanelets stop_sign_id))).
Proof.
  rewrite stopSignStopLines_flat. split.
  - intros s Hs. apply fold_stopSignStopLines_In in Hs.
    destruct Hs as [[]|(ts & others & Hin & Htype & Hlines)].
    apply in_flat_map in Hin. destruct Hin as (ll & Hll & Hts).
    apply in_regulatoryElementsAs in Hts. destruct Hts as [Hts Hclass].
    exists ll, ts, others. now repeat split.
  - intros ll ts front others Hll Hts Hclass Htype Hlines.
    apply (fold_stopSignStopLines_agrees api stop_sign_id _ ([], [])
             checklist_agrees_empty).
    apply (fold_stopSignStopLines_complete api stop_sign_id _ _ ts front others);
      try assumption.
    apply in_flat_map. exists ll. split; [exact Hll|].
    now apply in_regulatoryElementsAs.
Qed.

Lemma stopSignStopLines_sound_complete_witness :
  In (ls_id Junction.s2)
    (ids ls_id
       (stopSignStopLines Junction.api [Junction.La; Junction.Lb; Junction.Lc]
          "stop_sign"%string)).
Proof.
  apply (proj2 (stopSignStopLines_sound_complete Junction.api
                  [Junction.La; Junction.Lb; Junction.Lc] "stop_sign"%string)
           Junction.Lb Junction.TS Junction.s2 [Junction.s1]).
  - right. left. reflexivity.
  - right. right. left. reflexivity.
  - reflexivity.
  - reflexivity.
  - reflexivity.
Defined.

(** X20.  Every line that [stopSignStopLines] returns for some lanelets,
    whatever the requested sign type, is among the lines that
    [stopLinesLanelets] returns for the same lanelets. *)
Theorem stopSignStopLines_among_stopLinesLanelets
  (api : Lanelet2) (lanelets : list Lanelet) (stop_sign_id : String.string) :
  incl (stopSignStopLines api lanelets stop_sign_id)
       (stopLinesLanelets api lanelets).
Proof.
  intros s Hs. rewrite stopSignStopLines_flat in Hs.
  apply fold_stopSignStopLines_In in Hs.
  destruct Hs as [[]|(ts & others & Hin & _ & Hlines)].
  apply in_flat_map in Hin. destruct Hin as (ll & Hll & Hts).
  rewrite stopLinesLanelets_flat_map. apply in_flat_map. exists ll.
  split; [exact Hll|].
  rewrite stopLinesLanelet_flat_map, !in_app_iff. right. right.
  apply in_flat_map. exists ts. split; [exact Hts|].
  unfold sign_stopLine. rewrite Hlines. now left.
Qed.

Lemma stopSignStopLines_among_stopLinesLanelets_witness :
  In Junction.s2
    (stopLinesLanelets Junction.api [Junction.La; Junction.Lb; Junction.Lc]).
Proof.
  apply (stopSignStopLines_among_stopLinesLanelets Junction.api
           [Junction.La; Junction.Lb; Junction.Lc] "stop_sign"%string).
  left. reflexivity.
Defined.
